(** * Tic Tac Toe arena: the game core of [tic_tac_toe_frontend/src/App.js]

    A shallow embedding of the game logic of the React component [App]
    (board, winner detection, available moves, the computer's move choice,
    the handlers [handleMove], [chooseMode], [startNewGame], [resetAll], the
    effect that plays the computer's move, and which buttons are rendered
    and enabled), followed by the properties the specification states about
    it and by further properties of the component.

    Modelling conventions.
    - A board is a JavaScript array.  Its slots are modelled as a list of
      [Slot]: either a hole (an index below [length] that holds no element,
      as left behind by a write beyond the end) or an element holding a
      JavaScript value.  The only values the code ever stores are [null],
      [undefined] (produced by spreading an array with holes), ["X"] and
      ["O"].
    - Indices are natural numbers.  Those below 2^32 - 1 are array indices;
      a larger one is an ordinary property key: a write with it leaves the
      elements and the length alone and sets a property of the array object,
      which reads with that key see and which a copy by spread or [slice]
      does not carry over.  The properties of [game.board] are kept in the
      field [boardProps] of the game.
    - [Math.random()] is an explicit argument: a double in [0, 1), given as
      the rational [a / 2^k] it denotes.  The product with the number of
      moves is rounded as binary64 multiplication rounds it (to 53
      significant bits, ties to even) before [Math.floor].
    - The score update of [handleMove] is scheduled through
      [setTimeout(..., 120)] as a functional update [prev => ...]; the model
      applies it in the same transition.  Scores are natural numbers. *)

From Stdlib Require Import QArith Qround.
From stdpp Require Import base list.

(** ** JavaScript values and arrays *)

Inductive Mark := X | O.

Inductive Value :=
  | Null
  | Undefined
  | Str (m : Mark).

Inductive Slot :=
  | Hole
  | Elem (v : Value).

#[global] Instance Mark_eq_dec : EqDecision Mark.
Proof. solve_decision. Defined.
#[global] Instance Value_eq_dec : EqDecision Value.
Proof. solve_decision. Defined.
#[global] Instance Slot_eq_dec : EqDecision Slot.
Proof. solve_decision. Defined.

(** Truthiness of a value: [null] and [undefined] are falsy, the two
    one-character strings are truthy. *)
Definition truthy (v : Value) : bool :=
  match v with
  | Str _ => true
  | _ => false
  end.

(** Strict equality [v === w]. *)
Definition strict_eq (v w : Value) : bool := bool_decide (v = w).

(** [arr[i]]: a hole or an index beyond the end reads as [undefined]. *)
Definition js_get (arr : list Slot) (i : nat) : Value :=
  match arr !! i with
  | Some (Elem v) => v
  | _ => Undefined
  end.

(** The array indices of JavaScript: the integers from 0 to 2^32 - 2. *)
Definition arrayIndex (i : nat) : bool := (N.of_nat i <? 4294967295)%N.

(** The keys that address an element of [arr]: those inside the array, and
    the array indices beyond its end, which a write turns into elements.  (A
    JavaScript array has at most 2^32 - 1 elements, so on it the first case
    is contained in the second.) *)
Definition elementKey (arr : list Slot) (i : nat) : bool :=
  bool_decide (i < length arr) || arrayIndex i.

(** The elements after [arr[i] = v]: in range the slot is overwritten; for an
    array index beyond the end the array grows to length [i + 1] and the
    slots in between are holes; for any other key the elements and the
    length are left as they are (the write sets a property, see
    [propsAfterWrite]). *)
Definition js_set (arr : list Slot) (i : nat) (v : Value) : list Slot :=
  if decide (i < length arr) then <[i := Elem v]> arr
  else if arrayIndex i then arr ++ replicate (i - length arr) Hole ++ [Elem v]
  else arr.

(** The properties of a fresh copy (which has none) after [copy[i] = v]. *)
Definition propsAfterWrite (copy : list Slot) (i : nat) (v : Value) : list (nat * Value) :=
  if elementKey copy i then [] else [(i, v)].

(** The read of a property key: a key never set reads as [undefined]. *)
Fixpoint propRead (props : list (nat * Value)) (i : nat) : Value :=
  match props with
  | [] => Undefined
  | (k, v) :: rest => if decide (k = i) then v else propRead rest i
  end.

(** [[...arr]]: the iterator yields [undefined] for a hole. *)
Definition spread (arr : list Slot) : list Slot :=
  (λ s, match s with Hole => Elem Undefined | Elem v => Elem v end) <$> arr.

(** [arr.slice()]: a copy that keeps the holes. *)
Definition slice (arr : list Slot) : list Slot := arr.

(** [arr.every(p)]: holes are skipped. *)
Definition every (p : Value → bool) (arr : list Slot) : bool :=
  forallb (λ s, match s with Hole => true | Elem v => p v end) arr.

(** [arr.filter(p).length]: holes are skipped. *)
Definition filter_length (p : Value → bool) (arr : list Slot) : nat :=
  length (List.filter (λ s, match s with Hole => false | Elem v => p v end) arr).

(** ** Game state *)

Inductive Mode := PVP | PVC.

Inductive Theme := Light | Dark.

Record Game := mkGame {
  board : list Slot;
  boardProps : list (nat * Value);
  xIsNext : bool;
  winner : Value;
  tie : bool;
}.

Record Scores := mkScores {
  scoreX : nat;
  scoreO : nat;
  scoreTie : nat;
}.

(** The state held by the hooks of [App]. *)
Record App := mkApp {
  theme : Theme;
  mode : Mode;
  game : Game;
  scores : Scores;
  started : bool;
}.

#[global] Instance Mode_eq_dec : EqDecision Mode.
Proof. solve_decision. Defined.
#[global] Instance Theme_eq_dec : EqDecision Theme.
Proof. solve_decision. Defined.
#[global] Instance Game_eq_dec : EqDecision Game.
Proof. solve_decision. Defined.
#[global] Instance Scores_eq_dec : EqDecision Scores.
Proof. solve_decision. Defined.
#[global] Instance App_eq_dec : EqDecision App.
Proof. solve_decision. Defined.

Definition initialState : Game :=
  {| board := replicate 9 (Elem Null);
     boardProps := [];
     xIsNext := true;
     winner := Null;
     tie := false |}.

Definition initialScores : Scores :=
  {| scoreX := 0; scoreO := 0; scoreTie := 0 |}.

(** The state of [App] at its first render. *)
Definition initialApp : App :=
  {| theme := Light;
     mode := PVP;
     game := initialState;
     scores := initialScores;
     started := false |}.

(** ** Rules *)

Definition lines : list (nat * nat * nat) :=
  [ (0, 1, 2); (3, 4, 5); (6, 7, 8);
    (0, 3, 6); (1, 4, 7); (2, 5, 8);
    (0, 4, 8); (2, 4, 6) ].

(** The test of the loop body of [getWinner]. *)
Definition lineOwned (board : list Slot) (l : nat * nat * nat) : bool :=
  let '(a, b, c) := l in
  truthy (js_get board a)
  && strict_eq (js_get board a) (js_get board b)
  && strict_eq (js_get board a) (js_get board c).

Fixpoint getWinnerLoop (ls : list (nat * nat * nat)) (board : list Slot) : Value :=
  match ls with
  | [] => Null
  | l :: rest =>
      if lineOwned board l then js_get board (fst (fst l))
      else getWinnerLoop rest board
  end.

Definition getWinner (board : list Slot) : Value := getWinnerLoop lines board.

(** [board.map((cell, idx) => (cell ? null : idx)).filter((v) => v !== null)]:
    [map] keeps holes as holes and [filter] skips them, so the result lists
    the indices of the falsy elements in ascending order. *)
Fixpoint availableFrom (idx : nat) (board : list Slot) : list nat :=
  match board with
  | [] => []
  | Hole :: rest => availableFrom (S idx) rest
  | Elem cell :: rest =>
      if truthy cell then availableFrom (S idx) rest
      else idx :: availableFrom (S idx) rest
  end.

Definition getAvailableMoves (board : list Slot) : list nat :=
  availableFrom 0 board.

(** The integer [p] rounded to 53 significant bits, ties to the even
    mantissa: with [s] the number of bits of [p] beyond 53, the multiple of
    [2^s] nearest to [p].  This is the rounding of binary64 arithmetic on
    the numerator of an exact result [p / 2^k]. *)
Definition round53 (p : Z) : Z :=
  let s := (Z.log2 p - 52)%Z in
  if (s <=? 0)%Z then p
  else
    let q := (p / 2 ^ s)%Z in
    let rest := (p mod 2 ^ s)%Z in
    let half := (2 ^ (s - 1))%Z in
    let m := if (rest <? half)%Z then q
             else if (half <? rest)%Z then (q + 1)%Z
             else if Z.even q then q else (q + 1)%Z in
    (m * 2 ^ s)%Z.

(** [Math.floor(r * n)] as an array index, for the double [r = a / 2^k] and
    the length [n]: the exact product is [a * n / 2^k], binary64
    multiplication rounds its numerator, and [Math.floor] drops the
    fraction. *)
Definition floorMul (r : Q) (n : nat) : nat :=
  Z.to_nat (round53 (Qnum r * Z.of_nat n) / Z.pos (Qden r)).

(** [getRandomMove]; [r] is the value of [Math.random()].  [None] is [null]. *)
Definition getRandomMove (board : list Slot) (r : Q) : option nat :=
  let moves := getAvailableMoves board in
  if decide (length moves = 0) then None
  else moves !! floorMul r (length moves).

(** One of the two loops of [bestAIMove]: the first [idx] of [moves] such
    that writing [m] at [idx] in a copy of the board makes [getWinner] return
    [m]. *)
Fixpoint firstWinning (m : Mark) (board : list Slot) (moves : list nat) : option nat :=
  match moves with
  | [] => None
  | idx :: rest =>
      let copy := js_set (slice board) idx (Str m) in
      if strict_eq (getWinner copy) (Str m) then Some idx
      else firstWinning m board rest
  end.

Definition bestAIMove (board : list Slot) (r : Q) : option nat :=
  let moves := getAvailableMoves board in
  match firstWinning O board moves with
  | Some idx => Some idx
  | None =>
      match firstWinning X board moves with
      | Some idx => Some idx
      | None => getRandomMove board r
      end
  end.

Definition nextTurn (board : list Slot) : Mark :=
  if decide (filter_length truthy board `mod` 2 = 0) then X else O.

(** ** Handlers of [App] *)

Inductive ScoreKey := KeyX | KeyO | KeyTie.

(** [winner ? winner : "Tie"]. *)
Definition scoreKey (winner : Value) : ScoreKey :=
  match winner with
  | Str X => KeyX
  | Str O => KeyO
  | _ => KeyTie
  end.

(** [prev => ({ ...prev, [key]: prev[key] + 1 })]. *)
Definition bumpScore (key : ScoreKey) (prev : Scores) : Scores :=
  match key with
  | KeyX => {| scoreX := scoreX prev + 1; scoreO := scoreO prev; scoreTie := scoreTie prev |}
  | KeyO => {| scoreX := scoreX prev; scoreO := scoreO prev + 1; scoreTie := scoreTie prev |}
  | KeyTie => {| scoreX := scoreX prev; scoreO := scoreO prev; scoreTie := scoreTie prev + 1 |}
  end.

Definition activeMark (g : Game) : Mark := if xIsNext g then X else O.

(** [game.board[idx]]: an element of the array, or for another key a
    property of the array object. *)
Definition cellRead (g : Game) (idx : nat) : Value :=
  if elementKey (board g) idx then js_get (board g) idx
  else propRead (boardProps g) idx.

(** The guard of [handleMove]: [game.board[idx] || game.winner || game.tie]. *)
Definition moveRejected (g : Game) (idx : nat) : bool :=
  truthy (cellRead g idx) || truthy (winner g) || tie g.

(** The game installed by [setGame] in [handleMove] when the guard passes. *)
Definition playedGame (g : Game) (idx : nat) : Game :=
  let copy := spread (board g) in
  let board := js_set copy idx (Str (activeMark g)) in
  let props := propsAfterWrite copy idx (Str (activeMark g)) in
  let winner := getWinner board in
  let tie := negb (truthy winner) && every truthy board in
  {| board := board; boardProps := props;
     xIsNext := negb (xIsNext g); winner := winner; tie := tie |}.

(** [handleMove].  The score update is scheduled with [setTimeout(..., 120)]
    as a functional update of the scores, which nothing cancels: it is
    always applied, to the scores as they are when it fires.  Here it is
    applied with the move, so a statement about the scores of the result
    speaks of the scores once this move's own update has been applied. *)
Definition handleMove (idx : nat) (s : App) : App :=
  if moveRejected (game s) idx then s
  else
    let g := playedGame (game s) idx in
    {| theme := theme s;
       mode := mode s;
       game := g;
       scores := if truthy (winner g) || tie g
                 then bumpScore (scoreKey (winner g)) (scores s)
                 else scores s;
       started := started s |}.

Definition startNewGame (s : App) : App :=
  {| theme := theme s;
     mode := mode s;
     game := initialState;
     scores := scores s;
     started := true |}.

Definition resetAll (s : App) : App :=
  {| theme := theme s;
     mode := PVP;
     game := initialState;
     scores := initialScores;
     started := false |}.

Definition chooseMode (newMode : Mode) (s : App) : App :=
  {| theme := theme s;
     mode := newMode;
     game := initialState;
     scores := scores s;
     started := false |}.

(** A click on a button of [ModeSelect]: the buttons carry
    [disabled={started}], and a disabled button does not run [onClick]. *)
Definition clickModeButton (newMode : Mode) (s : App) : App :=
  if started s then s else chooseMode newMode s.

(** A sequence of [handleMove] calls, each on the state the previous left. *)
Definition handleMoves (idxs : list nat) (s : App) : App :=
  foldl (λ st idx, handleMove idx st) s idxs.

(** The case analysis of [renderStatus]: a winner is reported first, then a
    tie, and otherwise the round is in progress. *)
Inductive Outcome := InProgress | Won (m : Mark) | Tied.

Definition outcome (g : Game) : Outcome :=
  match winner g with
  | Str m => Won m
  | _ => if tie g then Tied else InProgress
  end.

Definition other (m : Mark) : Mark :=
  match m with X => O | O => X end.

(** ** Vocabulary of the statements *)

(** All three cells of the line read as the mark [m]. *)
Definition ownedBy (board : list Slot) (l : nat * nat * nat) (m : Mark) : Prop :=
  let '(a, b, c) := l in
  js_get board a = Str m ∧ js_get board b = Str m ∧ js_get board c = Str m.

(** Index [i] holds an element that is falsy: a move can be played there. *)
Definition legalMove (board : list Slot) (i : nat) : Prop :=
  ∃ v, board !! i = Some (Elem v) ∧ truthy v = false.

(** Writing [m] at [i] makes [getWinner] report [m]. *)
Definition winsWith (m : Mark) (board : list Slot) (i : nat) : Prop :=
  getWinner (js_set board i (Str m)) = Str m.

(** A value [Math.random()] can return: a double in [0, 1), that is
    [a / 2^k] with [a] below 2^53 and [k] at most 1074. *)
Definition validDraw (r : Q) : Prop :=
  (0 <= r)%Q ∧ (r < 1)%Q
  ∧ (Qnum r < 2 ^ 53)%Z
  ∧ ∃ k : Z, (0 ≤ k ≤ 1074)%Z ∧ Z.pos (Qden r) = (2 ^ k)%Z.

(** ** The rest of the component: theme, timer effect, buttons *)

(** [setTheme((t) => (t === "light" ? "dark" : "light"))]. *)
Definition toggleTheme (s : App) : App :=
  {| theme := match theme s with Light => Dark | Dark => Light end;
     mode := mode s;
     game := game s;
     scores := scores s;
     started := started s |}.

(** The condition of the effect that schedules the computer's move:
    [started && mode === MODES.PVC && !game.winner && !game.tie && !game.xIsNext]. *)
Definition computerTurn (s : App) : bool :=
  started s
  && bool_decide (mode s = PVC)
  && negb (truthy (winner (game s)))
  && negb (tie (game s))
  && negb (xIsNext (game s)).

(** The body of the timer callback:
    [const idx = bestAIMove(game.board); if (idx !== null) handleMove(idx)]. *)
Definition computerMove (r : Q) (s : App) : App :=
  match bestAIMove (board (game s)) r with
  | Some idx => handleMove idx s
  | None => s
  end.

(** The timer of the effect firing: it is pending only while the condition
    holds for the current game, mode and started flag (the effect's cleanup
    clears it when one of them changes). *)
Definition computerStep (r : Q) (s : App) : App :=
  if computerTurn s then computerMove r s else s.

(** The [disabled] attribute of a cell button in [renderCell]. *)
Definition cellDisabled (s : App) (idx : nat) : bool :=
  truthy (cellRead (game s) idx)
  || truthy (winner (game s))
  || tie (game s)
  || (bool_decide (mode s = PVC) && negb (xIsNext (game s))).

(** A click on the cell button [idx]: the nine buttons 0..8 are rendered only
    while started, and a disabled button does not run [onClick]. *)
Definition clickCell (idx : nat) (s : App) : App :=
  if started s && bool_decide (idx < 9) && negb (cellDisabled s idx)
  then handleMove idx s
  else s.

(** What can happen to the component: a click on one of its buttons, or the
    computer's timer firing with the draw [r]. *)
Inductive Event :=
  | ClickCell (idx : nat)
  | ClickStart
  | ClickNewGame
  | ClickResetAll
  | ClickMode (newMode : Mode)
  | ClickTheme
  | ComputerTimer (r : Q).

(** The start button is rendered while not started; the New Game and Reset
    All buttons while started. *)
Definition dispatch (e : Event) (s : App) : App :=
  match e with
  | ClickCell idx => clickCell idx s
  | ClickStart => if started s then s else startNewGame s
  | ClickNewGame => if started s then startNewGame s else s
  | ClickResetAll => if started s then resetAll s else s
  | ClickMode newMode => clickModeButton newMode s
  | ClickTheme => toggleTheme s
  | ComputerTimer r => computerStep r s
  end.

Definition runEvents (evs : list Event) (s : App) : App :=
  foldl (λ st e, dispatch e st) s evs.

(** Every timer event carries a value [Math.random()] can return. *)
Definition validEvent (e : Event) : Prop :=
  match e with
  | ComputerTimer r => validDraw r
  | _ => True
  end.

(** The number of cells holding the mark [m]. *)
Definition countMark (m : Mark) (board : list Slot) : nat :=
  filter_length (λ v, strict_eq v (Str m)) board.

(** A cell as [initialState] and [handleMove] leave it: [null] or a mark. *)
Definition plainCell (c : Slot) : Prop :=
  c = Elem Null ∨ ∃ m, c = Elem (Str m).

(** The shape of a game that the component keeps. *)
Definition consistentGame (g : Game) : Prop :=
  length (board g) = 9
  ∧ Forall plainCell (board g)
  ∧ winner g = getWinner (board g)
  ∧ tie g = negb (truthy (getWinner (board g))) && every truthy (board g)
  ∧ xIsNext g = Nat.even (filter_length truthy (board g))
  ∧ countMark X (board g) = countMark O (board g) + (if xIsNext g then 0 else 1).

(** ** Scenarios of the specification, run on the model *)

Example scenario1_top_row :
  let s := handleMoves [0; 4; 1; 5; 2] (startNewGame initialApp) in
  outcome (game s) = Won X ∧ scores s = {| scoreX := 1; scoreO := 0; scoreTie := 0 |}.
Proof. by vm_compute. Qed.

(** The index sequence 0,1,2,3,4,5,6,8,7 ends at its seventh move: X then
    holds 2, 4 and 6, and the last two calls are rejected. *)
Example scenario2_as_listed :
  let s := handleMoves [0; 1; 2; 3; 4; 5; 6; 8; 7] (startNewGame initialApp) in
  outcome (game s) = Won X ∧ s = handleMoves [0; 1; 2; 3; 4; 5; 6] (startNewGame initialApp).
Proof. by vm_compute. Qed.

Example full_board_tie :
  let s := handleMoves [0; 1; 2; 4; 3; 5; 7; 6; 8] (startNewGame initialApp) in
  outcome (game s) = Tied ∧ scores s = {| scoreX := 0; scoreO := 0; scoreTie := 1 |}.
Proof. by vm_compute. Qed.

(** ** Winner detection *)

Section Winner.
Variable board : list Slot.

Lemma lineOwned_true l : lineOwned board l = true ↔ ∃ m, ownedBy board l m.
Proof.
  destruct l as [[a b] c]. unfold lineOwned, ownedBy, strict_eq.
  rewrite !andb_true_iff, !bool_decide_eq_true. split.
  - intros [[Ht Hb] Hc]. destruct (js_get board a) as [| |m] eqn:Ha; try discriminate.
    exists m. by rewrite <- Hb, <- Hc.
  - intros [m (Ha & Hb & Hc)]. by rewrite Ha, Hb, Hc.
Qed.

Lemma lineOwned_false l : lineOwned board l = false ↔ ∀ m, ¬ ownedBy board l m.
Proof.
  rewrite <- not_true_iff_false, lineOwned_true. split.
  - intros Hn m Hm. apply Hn. by exists m.
  - intros Hn [m Hm]. by apply (Hn m).
Qed.

Lemma ownedBy_inj l m m' : ownedBy board l m → ownedBy board l m' → m = m'.
Proof.
  destruct l as [[a b] c]. intros (Ha & _) (Ha' & _). congruence.
Qed.

(** The loop returns the owner of the first owned line of [ls]. *)
Lemma getWinnerLoop_Str ls m :
  getWinnerLoop ls board = Str m ↔
  ∃ k l, ls !! k = Some l ∧ ownedBy board l m
         ∧ ∀ j l' m', j < k → ls !! j = Some l' → ¬ ownedBy board l' m'.
Proof.
  induction ls as [|l0 ls IH]; simpl.
  - split; [discriminate|]. by intros (k & l & Hk & _).
  - destruct (lineOwned board l0) eqn:Hown.
    + apply lineOwned_true in Hown as [m0 Hm0]. split.
      * intros Hget. exists 0, l0. split; [done|]. split; [|intros; lia].
        destruct l0 as [[a b] c]. simpl in *. destruct Hm0 as (Ha & Hb & Hc).
        rewrite Ha in Hget. by simplify_eq.
      * intros (k & l & Hk & Hl & Hfirst). destruct k as [|k].
        -- simpl in Hk. simplify_eq. destruct l as [[a b] c]. simpl in *. tauto.
        -- exfalso. apply (Hfirst 0 l0 m0); [lia|done|done].
    + rewrite IH. pose proof (proj1 (lineOwned_false l0) Hown) as Hno. split.
      * intros (k & l & Hk & Hl & Hfirst). exists (S k), l. split; [done|]. split; [done|].
        intros [|j] l' m' Hj Hl'; simpl in Hl'.
        -- simplify_eq. apply Hno.
        -- apply (Hfirst j); [lia|done].
      * intros (k & l & Hk & Hl & Hfirst). destruct k as [|k].
        -- simpl in Hk. simplify_eq. by apply Hno in Hl.
        -- exists k, l. split; [done|]. split; [done|].
           intros j l' m' Hj Hl'. apply (Hfirst (S j)); [lia|done].
Qed.

Lemma getWinnerLoop_Null ls :
  getWinnerLoop ls board = Null ↔ ∀ l m, l ∈ ls → ¬ ownedBy board l m.
Proof.
  induction ls as [|l0 ls IH]; simpl.
  - split; [|done]. intros _ l m Hl. by apply elem_of_nil in Hl.
  - destruct (lineOwned board l0) eqn:Hown.
    + apply lineOwned_true in Hown as [m0 Hm0]. split.
      * destruct l0 as [[a b] c]. simpl in *. destruct Hm0 as (Ha & _). by rewrite Ha.
      * intros Hno. exfalso. apply (Hno l0 m0); [left|done].
    + rewrite IH. pose proof (proj1 (lineOwned_false l0) Hown) as Hno. split.
      * intros Hrest l m [->|Hl]%elem_of_cons; [apply Hno|by apply Hrest].
      * intros Hall l m Hl. apply Hall. by right.
Qed.

Lemma getWinnerLoop_cases ls :
  getWinnerLoop ls board = Null ∨ ∃ m, getWinnerLoop ls board = Str m.
Proof.
  induction ls as [|l0 ls IH]; simpl; [by left|].
  destruct (lineOwned board l0) eqn:Hown; [|done].
  apply lineOwned_true in Hown as [m0 Hm0]. right. exists m0.
  destruct l0 as [[a b] c]. simpl in *. tauto.
Qed.

Lemma getWinner_cases : getWinner board = Null ∨ ∃ m, getWinner board = Str m.
Proof. apply getWinnerLoop_cases. Qed.

Lemma getWinner_truthy_Str : truthy (getWinner board) = true → ∃ m, getWinner board = Str m.
Proof. destruct getWinner_cases as [->|?]; [discriminate|done]. Qed.

Lemma getWinner_falsy_Null : truthy (getWinner board) = false → getWinner board = Null.
Proof. destruct getWinner_cases as [?|[m ->]]; [done|discriminate]. Qed.
End Winner.

(** C4.  For every board, [getWinner] returns the mark that occupies all
    three cells of the first fully owned line, in the order
    {0,1,2},{3,4,5},{6,7,8},{0,3,6},{1,4,7},{2,5,8},{0,4,8},{2,4,6}, and it
    returns [null] exactly when no line is owned by one mark; it returns
    nothing else. *)
Theorem getWinner_first_owned_line (board : list Slot) :
  lines = [ (0, 1, 2); (3, 4, 5); (6, 7, 8);
            (0, 3, 6); (1, 4, 7); (2, 5, 8);
            (0, 4, 8); (2, 4, 6) ]
  ∧ (∀ m, getWinner board = Str m ↔
          ∃ k l, lines !! k = Some l ∧ ownedBy board l m
                 ∧ ∀ j l' m', j < k → lines !! j = Some l' → ¬ ownedBy board l' m')
  ∧ (getWinner board = Null ↔ ∀ l m, l ∈ lines → ¬ ownedBy board l m)
  ∧ (getWinner board = Null ∨ ∃ m, getWinner board = Str m).
Proof.
  split; [reflexivity|]. split; [|split].
  - intros m. apply getWinnerLoop_Str.
  - apply getWinnerLoop_Null.
  - apply getWinner_cases.
Qed.

(** Two lines owned by different marks: the earlier line decides. *)
Example getWinner_double_line :
  getWinner (Elem <$> [Str O; Str O; Str O; Str X; Str X; Str X; Null; Null; Null]) = Str O.
Proof. reflexivity. Qed.

(** ** Available moves *)

Lemma elem_of_availableFrom k board i :
  i ∈ availableFrom k board ↔ k ≤ i ∧ legalMove board (i - k).
Proof.
  revert k. induction board as [|s rest IH]; intros k; simpl.
  - split; [by intros ?%elem_of_nil|]. by intros (_ & v & Hv & _).
  - assert (Hrest : i ∈ availableFrom (S k) rest ↔ k < i ∧ legalMove (s :: rest) (i - k)).
    { rewrite IH. unfold legalMove. split.
      - intros (Hk & v & Hv & Hf). split; [lia|]. exists v. split; [|done].
        by replace (i - k) with (S (i - S k)) by lia.
      - intros (Hk & v & Hv & Hf). split; [lia|]. exists v. split; [|done].
        by replace (i - k) with (S (i - S k)) in Hv by lia. }
    assert (Hhead : ∀ P : Prop, (legalMove (s :: rest) 0 ↔ P) →
              (i = k ∧ P) ∨ (k < i ∧ legalMove (s :: rest) (i - k))
              ↔ k ≤ i ∧ legalMove (s :: rest) (i - k)).
    { intros P HP. split.
      - intros [[-> HP']|[? ?]]; [|split; [lia|done]].
        split; [lia|]. replace (k - k) with 0 by lia. by apply HP.
      - intros [Hk Hl]. destruct (decide (i = k)) as [->|Hne].
        + left. split; [done|]. apply HP. by replace (k - k) with 0 in Hl by lia.
        + right. split; [lia|done]. }
    destruct s as [|cell]; [|destruct (truthy cell) eqn:Hcell].
    + rewrite Hrest, <- (Hhead False); [tauto|].
      split; [|done]. by intros (v & Hv & _).
    + rewrite Hrest, <- (Hhead False); [tauto|].
      split; [|done]. intros (v & Hv & Hf). simpl in Hv. simplify_eq. congruence.
    + rewrite elem_of_cons, Hrest, <- (Hhead True); [tauto|].
      split; [done|]. intros _. by exists cell.
Qed.

(** The available moves are exactly the legal moves. *)
Lemma elem_of_getAvailableMoves board i :
  i ∈ getAvailableMoves board ↔ legalMove board i.
Proof.
  unfold getAvailableMoves. rewrite elem_of_availableFrom.
  replace (i - 0) with i by lia. split; [tauto|]. split; [lia|done].
Qed.

Lemma availableFrom_ascending k board :
  ∀ a b x y, a < b → availableFrom k board !! a = Some x →
             availableFrom k board !! b = Some y → x < y.
Proof.
  revert k. induction board as [|s rest IH]; intros k a b x y Hab Ha Hb; simpl in *.
  - by rewrite lookup_nil in Ha.
  - destruct s as [|cell]; [by eapply IH|].
    destruct (truthy cell); [by eapply IH|].
    destruct b as [|b]; [lia|]. simpl in Hb.
    destruct a as [|a]; simpl in Ha.
    + simplify_eq. assert (Hy : y ∈ availableFrom (S x) rest) by (by eapply list_elem_of_lookup_2).
      apply elem_of_availableFrom in Hy. lia.
    + eapply IH; [|done..]. lia.
Qed.

(** ... listed in ascending order. *)
Lemma getAvailableMoves_ascending board a b x y :
  a < b → getAvailableMoves board !! a = Some x →
  getAvailableMoves board !! b = Some y → x < y.
Proof. apply availableFrom_ascending. Qed.

(** ** The computer's move *)

Lemma firstWinning_Some m board moves i :
  firstWinning m board moves = Some i ↔
  ∃ k, moves !! k = Some i ∧ winsWith m board i
       ∧ ∀ j x, j < k → moves !! j = Some x → ¬ winsWith m board x.
Proof.
  unfold winsWith. induction moves as [|idx rest IH]; simpl.
  - split; [discriminate|]. by intros (k & Hk & _).
  - unfold slice, strict_eq in *. case_bool_decide as Hw.
    + split.
      * intros [= ->]. exists 0. split; [done|]. split; [done|]. intros; lia.
      * intros ([|k] & Hk & Hi & Hfirst); simpl in Hk; [congruence|].
        exfalso. by apply (Hfirst 0 idx); [lia|..].
    + rewrite IH. split.
      * intros (k & Hk & Hi & Hfirst). exists (S k). split; [done|]. split; [done|].
        intros [|j] x Hj Hx; simpl in Hx; [congruence|]. apply (Hfirst j); [lia|done].
      * intros ([|k] & Hk & Hi & Hfirst); simpl in Hk; [congruence|].
        exists k. split; [done|]. split; [done|].
        intros j x Hj Hx. apply (Hfirst (S j)); [lia|done].
Qed.

Lemma firstWinning_None m board moves :
  firstWinning m board moves = None ↔ ∀ x, x ∈ moves → ¬ winsWith m board x.
Proof.
  unfold winsWith. induction moves as [|idx rest IH]; simpl.
  - split; [|done]. by intros _ x ?%elem_of_nil.
  - unfold slice, strict_eq in *. case_bool_decide as Hw.
    + split; [discriminate|]. intros Hall. exfalso. apply (Hall idx); [left|done].
    + rewrite IH. split.
      * intros Hrest x [->|Hx]%elem_of_cons; [done|by apply Hrest].
      * intros Hall x Hx. apply Hall. by right.
Qed.

(** On the available moves, the loop finds the least legal winning index. *)
Lemma firstWinning_least m board i :
  firstWinning m board (getAvailableMoves board) = Some i ↔
  legalMove board i ∧ winsWith m board i
  ∧ ∀ j, j < i → legalMove board j → ¬ winsWith m board j.
Proof.
  rewrite firstWinning_Some. split.
  - intros (k & Hk & Hi & Hfirst). split; [|split; [done|]].
    { apply elem_of_getAvailableMoves. by eapply list_elem_of_lookup_2. }
    intros j Hj [k' Hk']%elem_of_getAvailableMoves%list_elem_of_lookup_1.
    destruct (decide (k' < k)) as [Hlt|Hge]; [by apply (Hfirst k')|].
    destruct (decide (k' = k)) as [->|Hne]; [simplify_eq; lia|].
    assert (i < j); [|lia].
    apply (getAvailableMoves_ascending board k k'); [lia|done..].
  - intros ([k Hk]%elem_of_getAvailableMoves%list_elem_of_lookup_1 & Hi & Hleast).
    exists k. split; [done|]. split; [done|].
    intros j x Hj Hx. apply Hleast.
    + by apply (getAvailableMoves_ascending board j k).
    + apply elem_of_getAvailableMoves. by eapply list_elem_of_lookup_2.
Qed.

Lemma firstWinning_none_legal m board :
  firstWinning m board (getAvailableMoves board) = None ↔
  ∀ j, legalMove board j → ¬ winsWith m board j.
Proof.
  rewrite firstWinning_None. split.
  - intros Hall j Hj. by apply Hall, elem_of_getAvailableMoves.
  - intros Hall x Hx. by apply Hall, elem_of_getAvailableMoves.
Qed.

(** ** Rounding of the product *)

Lemma round53_le p : (0 ≤ p → round53 p * 2 ^ 53 ≤ p * (2 ^ 53 + 1))%Z.
Proof.
  intros Hp. unfold round53.
  destruct (Z.leb_spec (Z.log2 p - 52) 0) as [Hs|Hs]; [nia|].
  set (s := (Z.log2 p - 52)%Z) in *.
  assert (Hpos : (0 < p)%Z).
  { destruct (Z.eq_dec p 0%Z) as [->|?]; [|lia]. unfold s in Hs. simpl in Hs. lia. }
  pose proof (Z.log2_spec p Hpos) as [Hlo _].
  assert (Hhalf : (2 ^ (s - 1) * 2 ^ 53 = 2 ^ Z.log2 p)%Z).
  { rewrite <- Z.pow_add_r by lia. f_equal. unfold s. lia. }
  assert (H2s : (2 ^ s = 2 * 2 ^ (s - 1))%Z).
  { rewrite <- Z.pow_succ_r by lia. f_equal. lia. }
  assert (Hs0 : (0 < 2 ^ s)%Z) by (apply Z.pow_pos_nonneg; lia).
  pose proof (Z.div_mod p (2 ^ s) ltac:(lia)) as Hdm.
  pose proof (Z.mod_pos_bound p (2 ^ s) Hs0) as Hmod.
  set (q := (p / 2 ^ s)%Z) in *. set (rest := (p mod 2 ^ s)%Z) in *.
  set (half := (2 ^ (s - 1))%Z) in *.
  assert (Hup : ((q + 1) * 2 ^ s ≤ p + half ∨ rest < half)%Z) by nia.
  destruct (Z.ltb_spec rest half); [nia|].
  destruct (Z.ltb_spec half rest); [nia|].
  destruct (Z.even q); nia.
Qed.

Lemma round53_ge_multiple p t :
  (0 ≤ t → t ≤ p → (0 < Z.log2 p - 52 → (2 ^ (Z.log2 p - 52) | t)) → t ≤ round53 p)%Z.
Proof.
  intros Ht Htp Hdiv. unfold round53.
  destruct (Z.leb_spec (Z.log2 p - 52) 0) as [Hs|Hs]; [done|].
  set (s := (Z.log2 p - 52)%Z) in *.
  destruct (Hdiv Hs) as [c Hc].
  assert (Hs0 : (0 < 2 ^ s)%Z) by (apply Z.pow_pos_nonneg; lia).
  assert (Hq : (c ≤ p / 2 ^ s)%Z) by (apply Z.div_le_lower_bound; lia).
  set (q := (p / 2 ^ s)%Z) in *.
  destruct (Z.ltb_spec (p mod 2 ^ s) (2 ^ (s - 1))); [nia|].
  destruct (Z.ltb_spec (2 ^ (s - 1)) (p mod 2 ^ s)); [nia|].
  destruct (Z.even q); nia.
Qed.

Lemma round53_ge_pow2 p : (0 < p → 2 ^ Z.log2 p ≤ round53 p)%Z.
Proof.
  intros Hp. pose proof (Z.log2_spec p Hp) as [Hlo _].
  apply round53_ge_multiple; [apply Z.pow_nonneg; lia|done|].
  intros Hs. exists (2 ^ 52)%Z. rewrite <- Z.pow_add_r by lia. f_equal. lia.
Qed.

Lemma validDraw_parts r :
  validDraw r →
  ∃ k : Z, (0 ≤ k ≤ 1074)%Z ∧ Z.pos (Qden r) = (2 ^ k)%Z
           ∧ (0 ≤ Qnum r < 2 ^ 53)%Z ∧ (Qnum r < 2 ^ k)%Z.
Proof.
  intros (H0 & H1 & Ha & k & Hk & Hden). exists k. split; [done|]. split; [done|].
  unfold Qle, Qlt in *. simpl in *. rewrite <- Hden. lia.
Qed.

(** For a double [r] in [0, 1), [Math.floor(r * n)] is an index below [n]. *)
Lemma floorMul_lt r n : validDraw r → 0 < n → floorMul r n < n.
Proof.
  intros (k & Hk & Hden & Ha & Hak)%validDraw_parts Hn. unfold floorMul. rewrite Hden.
  set (p := (Qnum r * Z.of_nat n)%Z).
  assert (Hp : (0 ≤ p)%Z) by (unfold p; nia).
  pose proof (round53_le p Hp) as Hle.
  assert (H0 : (0 ≤ round53 p)%Z) by (by apply round53_ge_multiple; [..|intros _; apply Z.divide_0_r]).
  assert (Hk0 : (0 < 2 ^ k)%Z) by (apply Z.pow_pos_nonneg; lia).
  assert (Hlt : (round53 p < Z.of_nat n * 2 ^ k)%Z) by (unfold p in *; nia).
  assert (Hdiv : (round53 p / 2 ^ k < Z.of_nat n)%Z) by (apply Z.div_lt_upper_bound; lia).
  pose proof (Z.div_pos (round53 p) (2 ^ k) H0 Hk0). lia.
Qed.

Lemma floorMul_zero n : floorMul 0 n = 0.
Proof. reflexivity. Qed.

Lemma floorMul_half n : 2 ≤ n → 0 < floorMul (1 # 2) n.
Proof.
  intros Hn. unfold floorMul. simpl Qnum. simpl Qden. rewrite Z.mul_1_l.
  assert (Hlog : (1 ≤ Z.log2 (Z.of_nat n))%Z) by (apply Z.log2_le_pow2; simpl; lia).
  pose proof (round53_ge_pow2 (Z.of_nat n) ltac:(lia)) as Hge.
  assert (H2 : (2 ^ 1 ≤ 2 ^ Z.log2 (Z.of_nat n))%Z) by (apply Z.pow_le_mono_r; lia).
  assert (Hd : (1 ≤ round53 (Z.of_nat n) / 2)%Z) by (apply Z.div_le_lower_bound; lia).
  lia.
Qed.

(** The index [k] that [Math.floor(r * n)] gives is the integer part of the
    product up to its rounding: [r * n] is below [k + 1] (for [n] up to
    2^53), and not below [k] by more than the relative error 2^-53 of the
    multiplication. *)
Lemma floorMul_share r n :
  validDraw r → 0 < n →
  (inject_Z (Z.of_nat (floorMul r n))
   <= r * inject_Z (Z.of_nat n) * (1 + (1 # 9007199254740992)))%Q
  ∧ ((Z.of_nat n ≤ 2 ^ 53)%Z →
     (r * inject_Z (Z.of_nat n) < inject_Z (Z.of_nat (floorMul r n) + 1))%Q).
Proof.
  intros (k & Hk & Hden & Ha & Hak)%validDraw_parts Hn. unfold floorMul.
  destruct r as [a d]. simpl in *. rewrite Hden.
  set (p := (a * Z.of_nat n)%Z).
  assert (Hp : (0 ≤ p)%Z) by (unfold p; nia).
  pose proof (round53_le p Hp) as Hle.
  assert (H0 : (0 ≤ round53 p)%Z) by (by apply round53_ge_multiple; [..|intros _; apply Z.divide_0_r]).
  assert (Hk0 : (0 < 2 ^ k)%Z) by (apply Z.pow_pos_nonneg; lia).
  pose proof (Z.div_pos (round53 p) (2 ^ k) H0 Hk0) as Hq0.
  pose proof (Z.mul_div_le (round53 p) (2 ^ k) Hk0) as Hfloor.
  rewrite Z2Nat.id by done.
  set (q := (round53 p / 2 ^ k)%Z) in *.
  split.
  - unfold Qle, Qmult, Qplus, inject_Z. simpl.
    rewrite !Pos2Z.inj_mul, Hden. fold p.
    change (Z.pos 9007199254740992) with (2 ^ 53)%Z. nia.
  - intros Hn53. unfold Qlt, Qmult, inject_Z. simpl.
    rewrite !Pos2Z.inj_mul, Hden. fold p.
    destruct (Z.lt_ge_cases p ((q + 1) * 2 ^ k)) as [Hlt|Hge]; [lia|]. exfalso.
    assert (Hpos : (0 < p)%Z) by nia.
    assert (Hround : ((q + 1) * 2 ^ k ≤ round53 p)%Z).
    { apply round53_ge_multiple; [nia|done|]. intros Hs.
      assert (Hlog : (Z.log2 p < k + 53)%Z).
      { apply Z.log2_lt_pow2; [done|]. rewrite Z.pow_add_r by lia.
        unfold p. assert (0 < 2 ^ 53)%Z by done. nia. }
      exists ((q + 1) * 2 ^ (k - (Z.log2 p - 52)))%Z.
      rewrite <- Z.mul_assoc, <- Z.pow_add_r by lia. do 2 f_equal. lia. }
    assert (Hdiv : (q + 1 ≤ q)%Z).
    { unfold q at 2. apply Z.div_le_lower_bound; lia. }
    lia.
Qed.

(** Every index below [n] is the floor of the rounded product for some
    double in [0, 1), and one on the grid of multiples of 2^-52: the least
    of them whose exact product with [n] reaches [k]. *)
Lemma floorMul_reach k n :
  k < n → (Z.of_nat n ≤ 2 ^ 32)%Z →
  ∃ r, validDraw r ∧ Qden r = 4503599627370496%positive ∧ floorMul r n = k.
Proof.
  intros Hk Hn.
  set (a := ((Z.of_nat k * 2 ^ 52 + Z.of_nat n - 1) / Z.of_nat n)%Z).
  assert (H53 : (2 ^ 53 = 9007199254740992)%Z) by reflexivity.
  assert (H52 : (2 ^ 52 = 4503599627370496)%Z) by reflexivity.
  assert (H32 : (2 ^ 32 = 4294967296)%Z) by reflexivity.
  assert (Hlo : (Z.of_nat k * 2 ^ 52 ≤ a * Z.of_nat n)%Z).
  { pose proof (Z.mod_pos_bound (Z.of_nat k * 2 ^ 52 + Z.of_nat n - 1) (Z.of_nat n) ltac:(lia)).
    pose proof (Z.div_mod (Z.of_nat k * 2 ^ 52 + Z.of_nat n - 1) (Z.of_nat n) ltac:(lia)).
    fold a in H0. nia. }
  assert (Hhi : (a * Z.of_nat n ≤ Z.of_nat k * 2 ^ 52 + Z.of_nat n - 1)%Z).
  { pose proof (Z.mul_div_le (Z.of_nat k * 2 ^ 52 + Z.of_nat n - 1) (Z.of_nat n) ltac:(lia)).
    fold a in H. lia. }
  assert (Ha0 : (0 ≤ a)%Z) by (apply Z.div_pos; lia).
  assert (Ha : (a < 2 ^ 52)%Z) by nia.
  exists (a # 4503599627370496). split; [|split; [done|]].
  - split; [unfold Qle; simpl; lia|]. split; [unfold Qlt; simpl; lia|].
    split; [simpl; lia|]. exists 52%Z. split; [lia|done].
  - unfold floorMul. simpl Qnum. simpl Qden.
    change (Z.pos 4503599627370496) with (2 ^ 52)%Z.
    set (p := (a * Z.of_nat n)%Z) in *.
    assert (Hp : (0 ≤ p)%Z) by lia.
    pose proof (round53_le p Hp) as Hle.
    assert (Hge : (Z.of_nat k * 2 ^ 52 ≤ round53 p)%Z).
    { apply round53_ge_multiple; [lia|done|]. intros Hs.
      assert (Hpos : (0 < p)%Z).
      { destruct (Z.eq_dec p 0%Z) as [Hz|?]; [|lia]. rewrite Hz in Hs. simpl in Hs. lia. }
      assert (Hlog : (Z.log2 p < 84)%Z).
      { apply Z.log2_lt_pow2; [done|]. change (2 ^ 84)%Z with (2 ^ 32 * 2 ^ 52)%Z. nia. }
      exists (Z.of_nat k * 2 ^ (52 - (Z.log2 p - 52)))%Z.
      rewrite <- Z.mul_assoc, <- Z.pow_add_r by lia. do 2 f_equal. lia. }
    assert (Hlt : (round53 p < (Z.of_nat k + 1) * 2 ^ 52)%Z) by nia.
    assert (Hq : (round53 p / 2 ^ 52 = Z.of_nat k)%Z).
    { apply Z.le_antisymm.
      - assert (round53 p / 2 ^ 52 < Z.of_nat k + 1)%Z; [|lia].
        apply Z.div_lt_upper_bound; lia.
      - apply Z.div_le_lower_bound; lia. }
    rewrite Hq. apply Nat2Z.id.
Qed.

Ltac valid_draw_at k :=
  split; [discriminate|]; split; [reflexivity|]; split; [reflexivity|];
  exists k; split; [lia|reflexivity].

Ltac valid_draw :=
  first [valid_draw_at 0%Z | valid_draw_at 1%Z | valid_draw_at 2%Z | valid_draw_at 3%Z].

Lemma getRandomMove_None board r :
  validDraw r → getRandomMove board r = None ↔ getAvailableMoves board = [].
Proof.
  intros Hr. unfold getRandomMove. case_decide as Hlen.
  - split; [|done]. intros _. by apply nil_length_inv.
  - split.
    + intros Hnone. apply lookup_ge_None in Hnone.
      pose proof (floorMul_lt r (length (getAvailableMoves board)) Hr). lia.
    + intros Hnil. by rewrite Hnil in Hlen.
Qed.

(** C3.  [bestAIMove] follows a strict priority, the computer being O: the
    least legal index at which writing O makes O the winner; failing that,
    the least legal index at which writing X would make X the winner;
    failing that, the entry at position [k = Math.floor(r * n)] of the [n]
    legal moves, where [r] is the draw; and [null] exactly when there is no
    legal move.  The position [k] is the integer part of [r * n] up to the
    rounding of that product in binary64: [r * n] is below [k + 1] (for any
    array a program can hold, [n] being at most 2^53) and not below [k] by
    more than the relative error 2^-53, so each legal move is chosen on an
    equal share [k/n <= r < (k+1)/n] of the draws, up to that rounding at
    the lower end.  The list the choice is made from holds exactly the legal
    moves, in ascending order. *)
Theorem bestAIMove_priority (board : list Slot) (r : Q) :
  validDraw r →
  let moves := getAvailableMoves board in
  let n := length moves in
  (∀ i, i ∈ moves ↔ legalMove board i)
  ∧ (∀ a b x y, a < b → moves !! a = Some x → moves !! b = Some y → x < y)
  ∧ (∀ i, legalMove board i → winsWith O board i →
          (∀ j, j < i → legalMove board j → ¬ winsWith O board j) →
          bestAIMove board r = Some i)
  ∧ ((∀ j, legalMove board j → ¬ winsWith O board j) →
     ∀ i, legalMove board i → winsWith X board i →
          (∀ j, j < i → legalMove board j → ¬ winsWith X board j) →
          bestAIMove board r = Some i)
  ∧ ((∀ j, legalMove board j → ¬ winsWith O board j ∧ ¬ winsWith X board j) →
     (∃ i, legalMove board i) →
     ∃ k i, k < n
            ∧ k = floorMul r n
            ∧ (inject_Z (Z.of_nat k)
               <= r * inject_Z (Z.of_nat n) * (1 + (1 # 9007199254740992)))%Q
            ∧ ((Z.of_nat n ≤ 2 ^ 53)%Z →
               (r * inject_Z (Z.of_nat n) < inject_Z (Z.of_nat k + 1))%Q)
            ∧ moves !! k = Some i
            ∧ legalMove board i
            ∧ bestAIMove board r = Some i)
  ∧ (bestAIMove board r = None ↔ ¬ ∃ i, legalMove board i).
Proof.
  intros Hr moves n. split; [apply elem_of_getAvailableMoves|].
  split; [apply getAvailableMoves_ascending|].
  split; [|split; [|split]].
  - intros i Hi Hw Hleast. unfold bestAIMove.
    by rewrite (proj2 (firstWinning_least O board i)).
  - intros HnoO i Hi Hw Hleast. unfold bestAIMove.
    rewrite (proj2 (firstWinning_none_legal O board)) by done.
    by rewrite (proj2 (firstWinning_least X board i)).
  - intros Hno [i0 Hi0]. unfold bestAIMove.
    rewrite (proj2 (firstWinning_none_legal O board)) by (intros j Hj; by apply Hno).
    rewrite (proj2 (firstWinning_none_legal X board)) by (intros j Hj; by apply Hno).
    assert (Hn : 0 < n).
    { apply elem_of_getAvailableMoves, list_elem_of_lookup_1 in Hi0 as [k Hk].
      apply lookup_lt_Some in Hk. subst n moves. lia. }
    pose proof (floorMul_lt r n Hr Hn) as Hlt.
    destruct (floorMul_share r n Hr Hn) as (Hlo & Hhi).
    destruct (lookup_lt_is_Some_2 moves (floorMul r n) Hlt) as [i Hi].
    exists (floorMul r n), i. repeat split; try done.
    + apply elem_of_getAvailableMoves. by eapply list_elem_of_lookup_2.
    + unfold getRandomMove. fold moves. fold n. case_decide; [lia|done].
  - unfold bestAIMove. split.
    + intros Hnone [i Hi].
      destruct (firstWinning O board (getAvailableMoves board)); [done|].
      destruct (firstWinning X board (getAvailableMoves board)); [done|].
      apply getRandomMove_None in Hnone; [|done].
      apply elem_of_getAvailableMoves in Hi. rewrite Hnone in Hi.
      by apply elem_of_nil in Hi.
    + intros Hno.
      assert (Hnil : getAvailableMoves board = []).
      { destruct (getAvailableMoves board) as [|x l] eqn:Hm; [done|].
        exfalso. apply Hno. exists x. apply elem_of_getAvailableMoves.
        rewrite Hm. left. }
      rewrite Hnil. simpl. by apply getRandomMove_None.
Qed.

(** Scenario 3 of the specification: O holds 0 and 4, X holds 1 and 2, and
    the computer completes the diagonal at 8 whatever the draw. *)
Lemma bestAIMove_priority_witness :
  validDraw (1 # 2)
  ∧ bestAIMove (Elem <$> [Str O; Str X; Str X; Null; Str O; Null; Null; Null; Null]) (1 # 2)
    = Some 8.
Proof.
  assert (Hr : validDraw (1 # 2)) by valid_draw.
  split; [exact Hr|].
  set (b := Elem <$> [Str O; Str X; Str X; Null; Str O; Null; Null; Null; Null]).
  destruct (bestAIMove_priority b (1 # 2) Hr) as (_ & _ & Hwin & _).
  apply Hwin.
  - by exists Null.
  - reflexivity.
  - intros j Hj _. do 8 (destruct j as [|j]; [vm_compute; discriminate|]). lia.
Defined.

(** The fallback on the empty board at the draw 2001599834386887 / 2^52:
    the exact product with 9 is 4 - 2^-52, which binary64 rounds to 4, so
    the fifth of the nine legal moves is chosen although the exact product
    is below 4. *)
Example bestAIMove_rounded_product :
  validDraw (2001599834386887 # 4503599627370496)
  ∧ floorMul (2001599834386887 # 4503599627370496) 9 = 4
  ∧ bestAIMove (board initialState) (2001599834386887 # 4503599627370496) = Some 4
  ∧ ((2001599834386887 # 4503599627370496) * inject_Z 9 < inject_Z 4)%Q.
Proof.
  split; [|repeat split].
  split; [discriminate|]. split; [reflexivity|]. split; [reflexivity|].
  exists 52%Z. split; [lia|reflexivity].
Qed.

(** ** Array facts used by the handlers *)

Lemma length_spread arr : length (spread arr) = length arr.
Proof. unfold spread. apply length_fmap. Qed.

Lemma js_get_spread arr i : js_get (spread arr) i = js_get arr i.
Proof.
  unfold js_get, spread. rewrite list_lookup_fmap.
  by destruct (arr !! i) as [[|v]|].
Qed.

Lemma spread_no_hole arr : Forall (λ s, s ≠ Hole) (spread arr).
Proof. unfold spread. apply Forall_fmap, Forall_true. by intros [|v]. Qed.

Lemma js_set_in_range arr i v :
  i < length arr → js_set arr i v = <[i := Elem v]> arr.
Proof. intros Hi. unfold js_set. by case_decide. Qed.

Lemma elementKey_lt arr i : i < length arr → elementKey arr i = true.
Proof. intros Hi. unfold elementKey. by rewrite bool_decide_eq_true_2. Qed.

Lemma arrayIndex_cell i : i < 9 → arrayIndex i = true.
Proof. intros Hi. unfold arrayIndex. apply N.ltb_lt. lia. Qed.

Lemma elementKey_cell arr i : i < 9 → elementKey arr i = true.
Proof.
  intros Hi. unfold elementKey. rewrite arrayIndex_cell by done. apply orb_true_r.
Qed.

Lemma elementKey_spread arr i : elementKey (spread arr) i = elementKey arr i.
Proof. unfold elementKey. by rewrite length_spread. Qed.

Lemma elementKey_false arr i :
  elementKey arr i = false → ¬ i < length arr ∧ arrayIndex i = false.
Proof.
  unfold elementKey. intros [H1 H2]%orb_false_iff.
  by apply bool_decide_eq_false in H1.
Qed.

Lemma js_set_not_key arr i v : elementKey arr i = false → js_set arr i v = arr.
Proof.
  intros [Hi Ha]%elementKey_false. unfold js_set. case_decide; [done|]. by rewrite Ha.
Qed.

Lemma js_get_js_set arr i v :
  elementKey arr i = true → js_get (js_set arr i v) i = v.
Proof.
  intros Hkey. unfold js_get, js_set. case_decide as Hi.
  - by rewrite list_lookup_insert_eq.
  - unfold elementKey in Hkey. rewrite bool_decide_eq_false_2 in Hkey by done.
    simpl in Hkey. rewrite Hkey.
    rewrite lookup_app_r by lia. rewrite lookup_app_r; rewrite length_replicate; [|lia].
    by replace (i - length arr - (i - length arr)) with 0 by lia.
Qed.

Lemma cellRead_key g i :
  elementKey (board g) i = true → cellRead g i = js_get (board g) i.
Proof. intros Hkey. unfold cellRead. by rewrite Hkey. Qed.


Lemma filter_length_spread arr :
  filter_length truthy (spread arr) = filter_length truthy arr.
Proof.
  unfold filter_length, spread.
  induction arr as [|[|v] arr IH]; simpl; [done|exact IH|].
  destruct (truthy v); simpl; [f_equal|]; exact IH.
Qed.

(** Writing a mark where the array reads falsy adds one truthy element,
    whether the index is inside the array or an array index beyond its
    end. *)
Lemma filter_length_js_set arr i m :
  elementKey arr i = true →
  truthy (js_get arr i) = false →
  filter_length truthy (js_set arr i (Str m)) = S (filter_length truthy arr).
Proof.
  intros Hkey. unfold js_set, filter_length. case_decide as Hi.
  - clear Hkey. revert i Hi. induction arr as [|s arr IH]; intros i Hi Hf.
    + simpl in Hi. lia.
    + destruct i as [|i]; simpl.
      * destruct s as [|v]; [done|]. unfold js_get in Hf. simpl in Hf. by rewrite Hf.
      * assert (Hf' : truthy (js_get arr i) = false) by done.
        assert (Hi' : i < length arr) by (simpl in Hi; lia).
        destruct s as [|v]; [by apply IH|].
        destruct (truthy v); simpl; by rewrite IH.
  - intros _. unfold elementKey in Hkey. rewrite bool_decide_eq_false_2 in Hkey by done.
    simpl in Hkey. rewrite Hkey.
    rewrite !List.filter_app, !length_app. simpl.
    assert (Hholes : ∀ k, List.filter (λ s, match s with Hole => false | Elem v => truthy v end)
                            (replicate k Hole) = []).
    { intros k. induction k as [|k IHk]; simpl; done. }
    rewrite Hholes. simpl. lia.
Qed.

Lemma every_truthy arr :
  every truthy arr = true ↔
  ∀ i s, arr !! i = Some s → s = Hole ∨ ∃ m, s = Elem (Str m).
Proof.
  unfold every. rewrite forallb_forall. split.
  - intros Hall i s Hs. apply list_elem_of_lookup_2, list_elem_of_In, Hall in Hs.
    destruct s as [|[| |m]]; try discriminate; [by left|right; by exists m].
  - intros Hall s [i Hs]%list_elem_of_In%list_elem_of_lookup_1.
    by destruct (Hall i s Hs) as [->|[m ->]].
Qed.

(** ** [handleMove] *)

Lemma outcome_InProgress g :
  outcome g = InProgress ↔ truthy (winner g) = false ∧ tie g = false.
Proof.
  unfold outcome. destruct (winner g), (tie g); simpl; split; try done; by intros [? ?].
Qed.

Lemma moveRejected_true g idx :
  moveRejected g idx = true ↔
  truthy (cellRead g idx) = true ∨ outcome g ≠ InProgress.
Proof.
  unfold moveRejected. rewrite !orb_true_iff, outcome_InProgress.
  destruct (truthy (winner g)), (tie g); intuition congruence.
Qed.

Lemma handleMove_rejected idx s :
  moveRejected (game s) idx = true → handleMove idx s = s.
Proof. intros Hrej. unfold handleMove. by rewrite Hrej. Qed.

Lemma handleMove_accepted_game idx s :
  moveRejected (game s) idx = false → game (handleMove idx s) = playedGame (game s) idx.
Proof. intros Hacc. unfold handleMove. by rewrite Hacc. Qed.

Lemma winner_playedGame g idx :
  winner (playedGame g idx) = Null ∨ ∃ m, winner (playedGame g idx) = Str m.
Proof. apply getWinner_cases. Qed.

Lemma handleMoves_snoc idxs idx s :
  handleMoves (idxs ++ [idx]) s = handleMove idx (handleMoves idxs s).
Proof. unfold handleMoves. by rewrite foldl_snoc. Qed.

(** An accepted move is visible: the turn flag flips. *)
Lemma handleMove_accepted_changes idx s :
  moveRejected (game s) idx = false → handleMove idx s ≠ s.
Proof.
  intros Hacc Heq. apply (f_equal (λ st, xIsNext (game st))) in Heq.
  rewrite handleMove_accepted_game in Heq by done. simpl in Heq.
  by destruct (xIsNext (game s)).
Qed.




(** C6.  Once the outcome is a win or a tie, every further sequence of
    [handleMove] calls, at any indices, leaves the state as it is. *)
Theorem terminal_round_locked (s : App) (idxs : list nat) :
  outcome (game s) ≠ InProgress →
  handleMoves idxs s = s
  ∧ ∀ idx, handleMove idx s = s ∧ outcome (game (handleMove idx s)) = outcome (game s).
Proof.
  intros Hterm.
  assert (Hone : ∀ idx, handleMove idx s = s).
  { intros idx. apply handleMove_rejected, moveRejected_true. by right. }
  split.
  - induction idxs as [|idx idxs IH] using rev_ind; [done|].
    by rewrite handleMoves_snoc, IH.
  - intros idx. by rewrite Hone.
Qed.

Lemma terminal_round_locked_witness :
  let s := handleMoves [0; 4; 1; 5; 2] (startNewGame initialApp) in
  outcome (game s) = Won X ∧ handleMoves [3; 9; 0; 8; 12] s = s.
Proof.
  intros s. split; [reflexivity|].
  apply (terminal_round_locked s [3; 9; 0; 8; 12]).
  vm_compute. discriminate.
Defined.

Lemma cellRead_playedGame g idx :
  cellRead (playedGame g idx) idx = Str (activeMark g).
Proof.
  unfold cellRead, playedGame, propsAfterWrite. simpl.
  destruct (elementKey (spread (board g)) idx) eqn:Hkey.
  - assert (Hkey' : elementKey (js_set (spread (board g)) idx (Str (activeMark g))) idx = true).
    { unfold elementKey in *. apply orb_true_iff in Hkey as [Hlt%bool_decide_eq_true|Ha].
      - rewrite js_set_in_range, length_insert by done. by rewrite bool_decide_eq_true_2.
      - rewrite Ha. apply orb_true_r. }
    rewrite Hkey'. by apply js_get_js_set.
  - rewrite js_set_not_key, Hkey by done. simpl. by case_decide.
Qed.

(** C5.  A rejected call changes nothing, so no score.  An accepted call
    starts from a round in progress, writes the mover's mark at the index,
    and records as winner and tie what [getWinner] and the fullness test
    give on the new board; and then: if the new outcome is a win of X, the
    X count grows by one and the other two are unchanged; likewise for O;
    if it is a tie, the tie count grows by one and the other two are
    unchanged; if the round is still in progress, the scores are
    unchanged. *)
Theorem handleMove_scores (s : App) (idx : nat) :
  let s' := handleMove idx s in
  if moveRejected (game s) idx then s' = s
  else
    outcome (game s) = InProgress
    ∧ cellRead (game s') idx = Str (activeMark (game s))
    ∧ winner (game s') = getWinner (board (game s'))
    ∧ tie (game s')
      = negb (truthy (getWinner (board (game s')))) && every truthy (board (game s'))
    ∧ match outcome (game s') with
      | Won X => scoreX (scores s') = scoreX (scores s) + 1
                 ∧ scoreO (scores s') = scoreO (scores s)
                 ∧ scoreTie (scores s') = scoreTie (scores s)
      | Won O => scoreX (scores s') = scoreX (scores s)
                 ∧ scoreO (scores s') = scoreO (scores s) + 1
                 ∧ scoreTie (scores s') = scoreTie (scores s)
      | Tied => scoreX (scores s') = scoreX (scores s)
                ∧ scoreO (scores s') = scoreO (scores s)
                ∧ scoreTie (scores s') = scoreTie (scores s) + 1
      | InProgress => scores s' = scores s
      end.
Proof.
  simpl. destruct (moveRejected (game s) idx) eqn:Hrej.
  - by rewrite handleMove_rejected.
  - split.
    { destruct (outcome (game s)) eqn:Hout; [done|exfalso..];
        apply not_true_iff_false in Hrej; apply Hrej, moveRejected_true; right;
        by rewrite Hout. }
    split; [rewrite handleMove_accepted_game by done; apply cellRead_playedGame|].
    split; [by rewrite handleMove_accepted_game|].
    split; [by rewrite handleMove_accepted_game|].
    unfold handleMove, outcome. rewrite Hrej. simpl.
    destruct (winner_playedGame (game s) idx) as [Hw|[m Hw]].
    + unfold playedGame in *. simpl in *. rewrite Hw. simpl.
      by destruct (every truthy _).
    + unfold playedGame in *. simpl in *. rewrite Hw. simpl. by destruct m.
Qed.

(** Two moves that end a round: X completes the top row and the X count
    goes from 0 to 1; the ninth mark fills the board without a line and the
    tie count goes from 0 to 1. *)
Lemma handleMove_scores_witness :
  let s := handleMoves [0; 4; 1; 5] (startNewGame initialApp) in
  let t := handleMoves [0; 1; 2; 4; 3; 5; 7; 6] (startNewGame initialApp) in
  (moveRejected (game s) 2 = false
   ∧ outcome (game (handleMove 2 s)) = Won X
   ∧ scoreX (scores s) = 0
   ∧ scoreX (scores (handleMove 2 s)) = 1)
  ∧ (moveRejected (game t) 8 = false
     ∧ outcome (game (handleMove 8 t)) = Tied
     ∧ scoreTie (scores t) = 0
     ∧ scoreTie (scores (handleMove 8 t)) = 1).
Proof.
  intros s t. split.
  - assert (Hacc : moveRejected (game s) 2 = false) by reflexivity.
    assert (Hout : outcome (game (handleMove 2 s)) = Won X) by reflexivity.
    assert (H0 : scoreX (scores s) = 0) by reflexivity.
    pose proof (handleMove_scores s 2) as Hthm. cbv zeta in Hthm.
    rewrite Hacc, Hout in Hthm. destruct Hthm as (_ & _ & _ & _ & HX & _).
    split; [exact Hacc|]. split; [exact Hout|]. split; [exact H0|].
    rewrite HX, H0. reflexivity.
  - assert (Hacc : moveRejected (game t) 8 = false) by reflexivity.
    assert (Hout : outcome (game (handleMove 8 t)) = Tied) by reflexivity.
    assert (H0 : scoreTie (scores t) = 0) by reflexivity.
    pose proof (handleMove_scores t 8) as Hthm. cbv zeta in Hthm.
    rewrite Hacc, Hout in Hthm. destruct Hthm as (_ & _ & _ & _ & _ & _ & HT).
    split; [exact Hacc|]. split; [exact Hout|]. split; [exact H0|].
    rewrite HT, H0. reflexivity.
Defined.

(** C7.  On a nine-cell board and an index on it, the tie flag that
    [handleMove] computes for the new board is true exactly when [getWinner]
    of that board is [null] and each of its nine cells holds a mark; and
    whenever [getWinner] reports a mark, the outcome is a win of that mark
    and the tie flag is false, also when the move filled the board. *)
Theorem tie_iff_full_without_winner (g : Game) (idx : nat) :
  length (board g) = 9 → idx < 9 →
  let g' := playedGame g idx in
  length (board g') = 9
  ∧ winner g' = getWinner (board g')
  ∧ (tie g' = true ↔
     getWinner (board g') = Null
     ∧ ∀ i, i < 9 → ∃ m, board g' !! i = Some (Elem (Str m)))
  ∧ (∀ m, getWinner (board g') = Str m → outcome g' = Won m ∧ tie g' = false).
Proof.
  intros Hlen Hidx g'.
  assert (Hb : board g' = <[idx := Elem (Str (activeMark g))]> (spread (board g))).
  { unfold g', playedGame. simpl. apply js_set_in_range. rewrite length_spread. lia. }
  assert (Hlen' : length (board g') = 9).
  { by rewrite Hb, length_insert, length_spread. }
  assert (Hnoholes : Forall (λ s, s ≠ Hole) (board g')).
  { rewrite Hb. apply Forall_insert; [apply spread_no_hole|done]. }
  assert (Hfull : every truthy (board g') = true ↔
                  ∀ i, i < 9 → ∃ m, board g' !! i = Some (Elem (Str m))).
  { rewrite every_truthy. split.
    - intros Hall i Hi.
      destruct (lookup_lt_is_Some_2 (board g') i) as [s Hs]; [lia|].
      destruct (Hall i s Hs) as [->|[m ->]]; [|by exists m].
      exfalso. rewrite Forall_lookup in Hnoholes. by apply (Hnoholes i Hole).
    - intros Hall i s Hs. right.
      destruct (Hall i) as [m Hm]; [apply lookup_lt_Some in Hs; lia|].
      exists m. congruence. }
  split; [done|]. split; [done|]. split.
  - rewrite <- Hfull.
    change (tie g') with (negb (truthy (getWinner (board g'))) && every truthy (board g')).
    rewrite andb_true_iff, negb_true_iff. split.
    + intros [Hw He]. split; [by apply getWinner_falsy_Null|done].
    + intros [Hw He]. by rewrite Hw.
  - intros m Hm.
    change (tie g') with (negb (truthy (getWinner (board g'))) && every truthy (board g')).
    unfold outcome. change (winner g') with (getWinner (board g')).
    by rewrite Hm.
Qed.

(** X completes the top row with the move that fills the board. *)
Lemma tie_iff_full_without_winner_witness :
  let g := {| board := Elem <$> [Str X; Str X; Null;
                                 Str O; Str O; Str X;
                                 Str O; Str X; Str O];
              boardProps := [];
              xIsNext := true; winner := Null; tie := false |} in
  length (board g) = 9 ∧ 2 < 9
  ∧ every truthy (board (playedGame g 2)) = true
  ∧ outcome (playedGame g 2) = Won X
  ∧ tie (playedGame g 2) = false.
Proof.
  intros g.
  assert (Hlen : length (board g) = 9) by reflexivity.
  assert (Hidx : 2 < 9) by lia.
  split; [exact Hlen|]. split; [exact Hidx|]. split; [reflexivity|].
  destruct (tie_iff_full_without_winner g 2 Hlen Hidx) as (_ & _ & _ & Hwon).
  apply Hwon. reflexivity.
Defined.

(** ** Turn order *)

Lemma nextTurn_even board :
  nextTurn board = if Nat.even (filter_length truthy board) then X else O.
Proof.
  unfold nextTurn. destruct (Nat.even _) eqn:Hev; case_decide as Hmod; try done.
  - apply Nat.even_spec in Hev as [k Hk]. exfalso. apply Hmod.
    rewrite Hk, Nat.mul_comm. apply Nat.Div0.mod_mul.
  - apply not_true_iff_false in Hev. exfalso. apply Hev, Nat.even_spec.
    exists (filter_length truthy board / 2).
    pose proof (Nat.div_mod_eq (filter_length truthy board) 2). lia.
Qed.

Lemma playedGame_parity g idx :
  elementKey (board g) idx = true →
  moveRejected g idx = false →
  xIsNext g = Nat.even (filter_length truthy (board g)) →
  xIsNext (playedGame g idx) = Nat.even (filter_length truthy (board (playedGame g idx))).
Proof.
  intros Hkey Hacc Hinv. unfold playedGame. simpl.
  rewrite filter_length_js_set, filter_length_spread.
  - by rewrite Nat.even_succ, <- Nat.negb_even, Hinv.
  - by rewrite elementKey_spread.
  - rewrite js_get_spread. unfold moveRejected in Hacc.
    rewrite cellRead_key in Hacc by done.
    by destruct (truthy (js_get (board g) idx)).
Qed.

Lemma length_playedGame g idx :
  idx < length (board g) → length (board (playedGame g idx)) = length (board g).
Proof.
  intros Hidx. unfold playedGame. simpl.
  rewrite js_set_in_range by (by rewrite length_spread).
  by rewrite length_insert, length_spread.
Qed.

Lemma handleMoves_parity s0 idxs :
  Forall (λ i, i < 9) idxs →
  let g := game (handleMoves idxs (startNewGame s0)) in
  length (board g) = 9
  ∧ xIsNext g = Nat.even (filter_length truthy (board g)).
Proof.
  induction idxs as [|idx idxs IH] using rev_ind; [done|].
  intros [Hidxs [Hidx _]%Forall_cons]%Forall_app. specialize (IH Hidxs).
  simpl in *. destruct IH as [Hlen Hpar]. rewrite handleMoves_snoc.
  destruct (moveRejected (game (handleMoves idxs (startNewGame s0))) idx) eqn:Hrej.
  - by rewrite handleMove_rejected.
  - rewrite handleMove_accepted_game by done. split.
    + rewrite length_playedGame; [done|lia].
    + apply playedGame_parity; [by apply elementKey_cell|done..].
Qed.

Lemma fresh_round_property_key s0 idx :
  9 ≤ idx → arrayIndex idx = false →
  let s := startNewGame s0 in
  moveRejected (game s) idx = false
  ∧ activeMark (game (handleMove idx s)) = O
  ∧ board (game (handleMove idx s)) = board (game s)
  ∧ nextTurn (board (game (handleMove idx s))) = X
  ∧ cellRead (game (handleMove idx s)) idx = Str X.
Proof.
  intros Hidx Harr s.
  assert (Hkey : elementKey (replicate 9 (Elem Null)) idx = false).
  { unfold elementKey. rewrite Harr, bool_decide_eq_false_2; [done|].
    rewrite length_replicate. lia. }
  assert (Hacc : moveRejected (game s) idx = false).
  { unfold moveRejected, cellRead.
    change (board (game s)) with (replicate 9 (Elem Null)). by rewrite Hkey. }
  assert (Hgame : game (handleMove idx s) = playedGame (game s) idx)
    by (by apply handleMove_accepted_game).
  assert (Hboard : board (game (handleMove idx s)) = board (game s)).
  { rewrite Hgame. unfold playedGame.
    change (board (game s)) with (replicate 9 (Elem Null)).
    rewrite js_set_not_key by (by rewrite elementKey_spread). reflexivity. }
  split; [done|]. split; [by rewrite Hgame|]. split; [done|].
  split; [by rewrite Hboard|]. rewrite Hgame. apply cellRead_playedGame.
Qed.

(** C8 fails for accepted moves outside the nine cells.  On a fresh round,
    [handleMove(9)] is accepted and hands the turn to O although none of the
    nine cells is occupied (the mark is element 9 of the array).  And
    [handleMove(4294967295)], whose key is not an array index, is accepted
    and hands the turn to O while the array is left as it was (the mark is
    a property of the array object): [nextTurn] of the board still says X. *)
Lemma turn_follows_board_parity_counterexample :
  let s := startNewGame initialApp in
  (moveRejected (game s) 9 = false
   ∧ activeMark (game (handleMove 9 s)) = O
   ∧ filter_length truthy (take 9 (board (game (handleMove 9 s)))) = 0)
  ∧ (moveRejected (game s) (N.to_nat 4294967295) = false
     ∧ activeMark (game (handleMove (N.to_nat 4294967295) s)) = O
     ∧ board (game (handleMove (N.to_nat 4294967295) s)) = board (game s)
     ∧ nextTurn (board (game (handleMove (N.to_nat 4294967295) s))) = X).
Proof.
  intros s. split; [by vm_compute|].
  destruct (fresh_round_property_key initialApp (N.to_nat 4294967295))
    as (H1 & H2 & H3 & H4 & _).
  - lia.
  - unfold arrayIndex. rewrite N2Nat.id. reflexivity.
  - split; [exact H1|]. split; [exact H2|]. split; [exact H3|exact H4].
Qed.

(** C8, amended.  A fresh round starts with X to move.  After any sequence
    of [handleMove] calls at cell indices 0..8 on it, the board still has its
    nine cells, the stored turn flag agrees with the parity of the occupied
    cells (even: X moves next, odd: O), which is what [nextTurn] computes
    from the board; and every accepted move at a cell index writes the mark
    whose turn it was and hands the turn to the other mark, while a rejected
    call changes nothing. *)
Theorem turn_follows_board_parity (s0 : App) (idxs : list nat) :
  Forall (λ i, i < 9) idxs →
  let s := handleMoves idxs (startNewGame s0) in
  activeMark (game (startNewGame s0)) = X
  ∧ length (board (game s)) = 9
  ∧ xIsNext (game s) = Nat.even (filter_length truthy (board (game s)))
  ∧ activeMark (game s) = nextTurn (board (game s))
  ∧ ∀ idx, idx < 9 →
      if moveRejected (game s) idx then handleMove idx s = s
      else js_get (board (game (handleMove idx s))) idx = Str (activeMark (game s))
           ∧ activeMark (game (handleMove idx s)) = other (activeMark (game s)).
Proof.
  intros Hidxs s. destruct (handleMoves_parity s0 idxs Hidxs) as [Hlen Hpar].
  fold s in Hlen, Hpar.
  split; [done|]. split; [done|]. split; [done|]. split.
  - rewrite nextTurn_even, <- Hpar. done.
  - intros idx Hidx. destruct (moveRejected (game s) idx) eqn:Hrej.
    + by apply handleMove_rejected.
    + rewrite handleMove_accepted_game by done. split.
      * unfold playedGame. simpl. apply js_get_js_set. by apply elementKey_cell.
      * unfold activeMark, playedGame. simpl. by destruct (xIsNext (game s)).
Qed.

Lemma turn_follows_board_parity_witness :
  let idxs := [0; 4; 1; 5; 8] in
  let s := handleMoves idxs (startNewGame initialApp) in
  Forall (λ i, i < 9) idxs
  ∧ filter_length truthy (board (game s)) = 5
  ∧ activeMark (game s) = O
  ∧ nextTurn (board (game s)) = O.
Proof.
  intros idxs s.
  assert (Hidxs : Forall (λ i, i < 9) idxs) by (unfold idxs; repeat constructor; lia).
  destruct (turn_follows_board_parity initialApp idxs Hidxs) as (_ & _ & _ & Hturn & _).
  fold s in Hturn.
  split; [exact Hidxs|]. split; [reflexivity|]. split; [reflexivity|].
  rewrite <- Hturn. reflexivity.
Defined.

Example turns_alternate :
  (λ k, activeMark (game (handleMoves (take k [0; 4; 1; 5; 2]) (startNewGame initialApp))))
    <$> [0; 1; 2; 3; 4]
  = [X; O; X; O; X].
Proof. reflexivity. Qed.

(** ** Mode selection and new rounds *)

(** C2 fails on the code.  After a first move of a started round,
    [chooseMode] with the other mode is not a no-op: the mode changes, the
    started flag is cleared and the round is replaced by the initial one. *)
Lemma chooseMode_while_started_counterexample :
  let s := handleMove 0 (startNewGame initialApp) in
  started s = true
  ∧ chooseMode PVC s ≠ s
  ∧ mode (chooseMode PVC s) ≠ mode s
  ∧ game (chooseMode PVC s) ≠ game s
  ∧ started (chooseMode PVC s) ≠ started s.
Proof.
  intros s. split; [reflexivity|]. split; [|split; [|split]].
  - intros Heq. by apply (f_equal mode) in Heq.
  - discriminate.
  - intros Heq. by apply (f_equal xIsNext) in Heq.
  - discriminate.
Qed.

(** C2, amended.  While a round is active, [chooseMode] itself still sets the
    requested mode, clears the started flag and installs the initial round,
    leaving the scores and the theme as they were; what is a no-op is the
    click on a mode button, which [ModeSelect] disables while started. *)
Theorem chooseMode_while_started (s : App) (newMode : Mode) :
  started s = true →
  mode (chooseMode newMode s) = newMode
  ∧ started (chooseMode newMode s) = false
  ∧ game (chooseMode newMode s) = initialState
  ∧ scores (chooseMode newMode s) = scores s
  ∧ theme (chooseMode newMode s) = theme s
  ∧ clickModeButton newMode s = s.
Proof.
  intros Hstarted. repeat split. unfold clickModeButton. by rewrite Hstarted.
Qed.

Lemma chooseMode_while_started_witness :
  let s := handleMove 0 (startNewGame initialApp) in
  started s = true
  ∧ mode (chooseMode PVC s) = PVC
  ∧ clickModeButton PVC s = s.
Proof.
  intros s.
  assert (Hstarted : started s = true) by reflexivity.
  destruct (chooseMode_while_started s PVC Hstarted) as (Hmode & _ & _ & _ & _ & Hclick).
  split; [exact Hstarted|]. split; [exact Hmode|exact Hclick].
Defined.

(** C10.  [startNewGame] installs the initial round (nine empty cells, X to
    move, no winner, no tie: in progress) and sets the started flag; the
    scores, the mode and the theme are those of the state it was called on. *)
Theorem startNewGame_frame (s : App) :
  let s' := startNewGame s in
  game s' = initialState
  ∧ board (game s') = replicate 9 (Elem Null)
  ∧ getAvailableMoves (board (game s')) = [0; 1; 2; 3; 4; 5; 6; 7; 8]
  ∧ activeMark (game s') = X
  ∧ outcome (game s') = InProgress
  ∧ started s' = true
  ∧ scores s' = scores s
  ∧ mode s' = mode s
  ∧ theme s' = theme s.
Proof. repeat split. Qed.

(** ** Dependence on the random draw *)

(** C9 fails for [bestAIMove].  On the empty board no move wins or blocks,
    and two calls on that same board return index 0 when [Math.random()]
    yields 0 and index 4 when it yields 1/2. *)
Lemma bestAIMove_draw_counterexample :
  validDraw 0 ∧ validDraw (1 # 2)
  ∧ bestAIMove (board initialState) 0 = Some 0
  ∧ bestAIMove (board initialState) (1 # 2) = Some 4
  ∧ bestAIMove (board initialState) 0 ≠ bestAIMove (board initialState) (1 # 2).
Proof.
  split; [valid_draw|]. split; [valid_draw|].
  split; [reflexivity|]. split; [reflexivity|]. vm_compute. discriminate.
Qed.

(** C9, amended.  The result of [bestAIMove] does not depend on the random
    draw whenever some legal move wins for O or blocks X, or at most one
    legal move exists: on such a board any two calls return the same index.
    (The other operations take no draw at all.) *)
Theorem bestAIMove_draw_independent (board : list Slot) (r1 r2 : Q) :
  validDraw r1 → validDraw r2 →
  (∃ i, legalMove board i ∧ (winsWith O board i ∨ winsWith X board i))
  ∨ length (getAvailableMoves board) ≤ 1 →
  bestAIMove board r1 = bestAIMove board r2.
Proof.
  intros Hr1 Hr2 Hcase. unfold bestAIMove.
  destruct (firstWinning O board (getAvailableMoves board)) eqn:HO; [done|].
  destruct (firstWinning X board (getAvailableMoves board)) eqn:HX; [done|].
  destruct Hcase as [(i & Hi & [Hw|Hw])|Hlen].
  - exfalso. by apply (proj1 (firstWinning_none_legal O board) HO i).
  - exfalso. by apply (proj1 (firstWinning_none_legal X board) HX i).
  - unfold getRandomMove. case_decide as Hzero; [done|].
    assert (Hone : length (getAvailableMoves board) = 1) by lia.
    rewrite Hone.
    pose proof (floorMul_lt r1 1 Hr1) as Hb1.
    pose proof (floorMul_lt r2 1 Hr2) as Hb2.
    replace (floorMul r1 1) with 0 by lia. by replace (floorMul r2 1) with 0 by lia.
Qed.

Lemma bestAIMove_draw_independent_witness :
  validDraw 0 ∧ validDraw (1 # 2)
  ∧ bestAIMove (Elem <$> [Str X; Str X; Null; Null; Str O; Null; Null; Null; Null]) 0
    = bestAIMove (Elem <$> [Str X; Str X; Null; Null; Str O; Null; Null; Null; Null]) (1 # 2).
Proof.
  assert (H0 : validDraw 0) by valid_draw.
  assert (H1 : validDraw (1 # 2)) by valid_draw.
  split; [exact H0|]. split; [exact H1|].
  apply (bestAIMove_draw_independent _ 0 (1 # 2) H0 H1).
  left. exists 2. split; [by exists Null|]. right. reflexivity.
Defined.

(** On every other board the draw decides: with two or more legal moves and
    none that wins or blocks, the draws 0 and 1/2 give different indices. *)
Lemma bestAIMove_draw_dependent (board : list Slot) :
  (∀ i, legalMove board i → ¬ winsWith O board i ∧ ¬ winsWith X board i) →
  2 ≤ length (getAvailableMoves board) →
  bestAIMove board 0 ≠ bestAIMove board (1 # 2).
Proof.
  intros Hno Hlen. unfold bestAIMove.
  rewrite (proj2 (firstWinning_none_legal O board)) by (intros j Hj; by apply Hno).
  rewrite (proj2 (firstWinning_none_legal X board)) by (intros j Hj; by apply Hno).
  unfold getRandomMove. case_decide as Hzero; [lia|].
  set (n := length (getAvailableMoves board)) in *.
  assert (H0 : validDraw 0) by valid_draw.
  assert (H1 : validDraw (1 # 2)) by valid_draw.
  pose proof (floorMul_lt (1 # 2) n H1 ltac:(lia)) as Hlt1.
  pose proof (floorMul_zero n) as Hk0.
  pose proof (floorMul_half n Hlen) as Hk1.
  rewrite Hk0.
  destruct (lookup_lt_is_Some_2 (getAvailableMoves board) 0) as [x Hx]; [fold n; lia|].
  destruct (lookup_lt_is_Some_2 (getAvailableMoves board) (floorMul (1 # 2) n) Hlt1) as [y Hy].
  rewrite Hx, Hy. intros [= ->].
  pose proof (getAvailableMoves_ascending board 0 _ y y Hk1 Hx Hy). lia.
Qed.

(** * Further properties of the component *)

(** ** [getAvailableMoves] and [getRandomMove] *)

Lemma availableFrom_length k board :
  length (availableFrom k board) + filter_length truthy board ≤ length board
  ∧ (Forall (λ s, s ≠ Hole) board →
     length (availableFrom k board) + filter_length truthy board = length board).
Proof.
  revert k. unfold filter_length.
  induction board as [|s rest IH]; intros k; simpl; [done|].
  destruct (IH (S k)) as [Hle Heq]. destruct s as [|cell].
  - split; [lia|]. intros Hall. by inversion Hall.
  - destruct (truthy cell); simpl.
    + split; [lia|]. intros Hall. inversion Hall; subst. specialize (Heq ltac:(done)). lia.
    + split; [lia|]. intros Hall. inversion Hall; subst. specialize (Heq ltac:(done)). lia.
Qed.

(** X1.  The list [getAvailableMoves] returns has no duplicates; each of its
    entries is an index inside the board whose cell reads falsy; and together
    with the occupied cells it accounts for the whole board: never more than
    its length, and exactly its length when the array has no holes. *)
Theorem getAvailableMoves_shape (board : list Slot) :
  let moves := getAvailableMoves board in
  NoDup moves
  ∧ (∀ i, i ∈ moves → i < length board ∧ truthy (js_get board i) = false)
  ∧ length moves + filter_length truthy board ≤ length board
  ∧ (Forall (λ s, s ≠ Hole) board →
     length moves + filter_length truthy board = length board).
Proof.
  intros moves. split; [|split].
  - apply NoDup_alt. intros a b x Ha Hb.
    destruct (decide (a < b)) as [Hlt|Hge].
    { pose proof (getAvailableMoves_ascending board a b x x Hlt Ha Hb). lia. }
    destruct (decide (b < a)) as [Hlt|Hge'].
    { pose proof (getAvailableMoves_ascending board b a x x Hlt Hb Ha). lia. }
    lia.
  - intros i (v & Hv & Hf)%elem_of_getAvailableMoves. split.
    + by apply lookup_lt_Some in Hv.
    + unfold js_get. by rewrite Hv.
  - apply availableFrom_length.
Qed.

Lemma availableFrom_nil k board :
  availableFrom k board = [] ↔ every truthy board = true.
Proof.
  revert k. unfold every. induction board as [|s rest IH]; intros k; simpl; [done|].
  destruct s as [|cell]; [apply IH|].
  destruct (truthy cell); simpl; [apply IH|]. split; discriminate.
Qed.

(** X2.  [getAvailableMoves] returns the empty list exactly on the boards
    that pass the fullness test [board.every((cell) => cell)] of
    [handleMove]; both skip holes. *)
Theorem getAvailableMoves_nil_iff_full (board : list Slot) :
  getAvailableMoves board = [] ↔ every truthy board = true.
Proof. apply availableFrom_nil. Qed.

(** X3.  For a draw in [0, 1), [getRandomMove] returns [null] exactly when
    the board has no legal move, and any index it returns is a legal move. *)
Theorem getRandomMove_legal (board : list Slot) (r : Q) :
  validDraw r →
  (getRandomMove board r = None ↔ ¬ ∃ i, legalMove board i)
  ∧ (∀ i, getRandomMove board r = Some i → legalMove board i).
Proof.
  intros Hr. split.
  - rewrite getRandomMove_None by done. split.
    + intros Hnil [i Hi]. apply elem_of_getAvailableMoves in Hi.
      rewrite Hnil in Hi. by apply elem_of_nil in Hi.
    + intros Hno. destruct (getAvailableMoves board) as [|x l] eqn:Hm; [done|].
      exfalso. apply Hno. exists x. apply elem_of_getAvailableMoves. rewrite Hm. left.
  - intros i. unfold getRandomMove. case_decide; [done|].
    intros Hi. apply elem_of_getAvailableMoves. by eapply list_elem_of_lookup_2.
Qed.

Lemma getRandomMove_legal_witness :
  validDraw (3 # 8)
  ∧ legalMove (Elem <$> [Str X; Null; Str O; Null; Null]) 3.
Proof.
  assert (Hr : validDraw (3 # 8)) by valid_draw.
  split; [exact Hr|].
  destruct (getRandomMove_legal (Elem <$> [Str X; Null; Str O; Null; Null]) (3 # 8) Hr)
    as [_ Hlegal].
  apply Hlegal. reflexivity.
Defined.

Lemma getRandomMove_reach board i :
  (Z.of_nat (length board) < 2 ^ 32)%Z →
  legalMove board i →
  ∃ r, validDraw r ∧ Qden r = 4503599627370496%positive
       ∧ getRandomMove board r = Some i.
Proof.
  intros Hlen [k Hk]%elem_of_getAvailableMoves%list_elem_of_lookup_1.
  pose proof (lookup_lt_Some _ _ _ Hk) as Hlt.
  destruct (availableFrom_length 0 board) as [Hle _].
  fold (getAvailableMoves board) in Hle.
  set (n := length (getAvailableMoves board)) in *.
  destruct (floorMul_reach k n Hlt) as (r & Hr & Hden & Hfloor); [lia|].
  exists r. split; [done|]. split; [done|].
  unfold getRandomMove. fold n. case_decide; [lia|]. by rewrite Hfloor.
Qed.

(** X4.  Every legal move can be drawn: on an array of fewer than 2^32
    elements (as every JavaScript array is), for each legal index there is a
    double in [0, 1), and one that is a multiple of 2^-52, on which
    [getRandomMove], multiplying and rounding in binary64, returns it. *)
Theorem getRandomMove_reaches_every_move (board : list Slot) (i : nat) :
  (Z.of_nat (length board) < 2 ^ 32)%Z →
  legalMove board i →
  ∃ r, validDraw r ∧ Qden r = 4503599627370496%positive
       ∧ getRandomMove board r = Some i.
Proof. apply getRandomMove_reach. Qed.

Lemma getRandomMove_reaches_every_move_witness :
  let b := Elem <$> [Str X; Null; Str O; Null; Null] in
  (Z.of_nat (length b) < 2 ^ 32)%Z
  ∧ legalMove b 4
  ∧ ∃ r, validDraw r ∧ Qden r = 4503599627370496%positive
         ∧ getRandomMove b r = Some 4.
Proof.
  intros b.
  assert (Hlen : (Z.of_nat (length b) < 2 ^ 32)%Z) by reflexivity.
  assert (Hl : legalMove b 4) by (exists Null; split; reflexivity).
  split; [exact Hlen|]. split; [exact Hl|].
  exact (getRandomMove_reaches_every_move b 4 Hlen Hl).
Defined.

(** The rounding at work on the three legal moves 1, 3, 4 of this board.
    The draw 6004799503160662 / 2^53 (a multiple of 2^-52) is the least
    double whose exact product with 3 reaches 2, and selects the last move.
    The multiple of 2^-53 one below has an exact product just under 2, which
    binary64 rounds up to 2: it selects the last move as well.  The next one
    below selects the middle move. *)
Example getRandomMove_rounding :
  getRandomMove (Elem <$> [Str X; Null; Str O; Null; Null])
                (6004799503160662 # 9007199254740992) = Some 4
  ∧ getRandomMove (Elem <$> [Str X; Null; Str O; Null; Null])
                  (6004799503160661 # 9007199254740992) = Some 4
  ∧ getRandomMove (Elem <$> [Str X; Null; Str O; Null; Null])
                  (6004799503160660 # 9007199254740992) = Some 3.
Proof. repeat split; reflexivity. Qed.

(** ** What [getWinner] and a move can see and touch *)

Lemma js_get_js_set_ne arr i j v :
  i ≠ j → js_get (js_set arr i v) j = js_get arr j.
Proof.
  intros Hne. unfold js_get, js_set. case_decide as Hi.
  - by rewrite list_lookup_insert_ne.
  - destruct (arrayIndex i); [|done].
    destruct (decide (j < length arr)) as [Hj|Hj].
    + by rewrite lookup_app_l.
    + rewrite lookup_app_r by lia. rewrite (lookup_ge_None_2 arr j) by lia.
      destruct (decide (j - length arr < i - length arr)) as [Hin|Hout].
      * rewrite lookup_app_l by (by rewrite length_replicate).
        by rewrite lookup_replicate_2.
      * rewrite lookup_app_r by (rewrite length_replicate; lia).
        rewrite length_replicate.
        destruct (j - length arr - (i - length arr)) as [|d] eqn:Hd; [lia|done].
Qed.

Lemma getWinner_reads b b' :
  (∀ i, i < 9 → js_get b i = js_get b' i) → getWinner b = getWinner b'.
Proof.
  intros Hsame. unfold getWinner, lines, getWinnerLoop, lineOwned. simpl.
  by rewrite !Hsame by lia.
Qed.

Lemma lines_in_range l :
  l ∈ lines → l.1.1 < 9 ∧ l.1.2 < 9 ∧ l.2 < 9.
Proof.
  unfold lines. rewrite !elem_of_cons, elem_of_nil.
  intros H. repeat destruct H as [->|H]; simpl; try lia; done.
Qed.

Lemma ownedBy_same_marks b b' l m :
  (∀ i m, i < 9 → js_get b i = Str m ↔ js_get b' i = Str m) →
  l ∈ lines → ownedBy b l m ↔ ownedBy b' l m.
Proof.
  intros Hsame Hl. apply lines_in_range in Hl. destruct l as [[x y] z]. simpl in *.
  by rewrite !(Hsame _ m) by lia.
Qed.

(** X5.  [getWinner] looks at the cells 0..8 only, and only at the marks
    read there: two arrays that show the same marks at these nine indices
    have the same winner, whatever their lengths, their holes, or the falsy
    values ([null] or [undefined]) of their other cells. *)
Theorem getWinner_reads_nine_cells (b b' : list Slot) :
  (∀ i m, i < 9 → js_get b i = Str m ↔ js_get b' i = Str m) →
  getWinner b = getWinner b'.
Proof.
  intros Hsame.
  assert (Hstr : ∀ m, getWinner b = Str m ↔ getWinner b' = Str m).
  { intros m. unfold getWinner. rewrite !getWinnerLoop_Str.
    split; intros (k & l & Hk & Hown & Hfirst); exists k, l;
      (split; [done|]);
      pose proof (list_elem_of_lookup_2 _ _ _ Hk) as Hl.
    - split; [by apply (ownedBy_same_marks b b')|].
      intros j l' m' Hj Hl' Hown'. apply (Hfirst j l' m' Hj Hl').
      apply (ownedBy_same_marks b b'); [done| |done]. by eapply list_elem_of_lookup_2.
    - split; [by apply (ownedBy_same_marks b b')|].
      intros j l' m' Hj Hl' Hown'. apply (Hfirst j l' m' Hj Hl').
      apply (ownedBy_same_marks b b'); [done| |done]. by eapply list_elem_of_lookup_2. }
  destruct (getWinner_cases b) as [Hb|[m Hb]].
  - destruct (getWinner_cases b') as [Hb'|[m' Hb']]; [congruence|].
    apply Hstr in Hb'. congruence.
  - rewrite Hb. symmetry. by apply Hstr.
Qed.

Lemma getWinner_reads_nine_cells_witness :
  getWinner (Elem <$> [Str X; Str X; Str X; Null; Str O; Str O; Null; Null; Null; Str O])
  = getWinner ([Elem (Str X); Elem (Str X); Elem (Str X); Hole; Elem (Str O);
                Elem (Str O)]).
Proof.
  apply getWinner_reads_nine_cells.
  intros i m Hi. do 9 (destruct i as [|i]; [by vm_compute|]). lia.
Defined.

Lemma getWinner_js_set_spread arr i v :
  getWinner (js_set (spread arr) i v) = getWinner (js_set arr i v).
Proof.
  apply getWinner_reads. intros j _. destruct (decide (i = j)) as [->|Hne].
  - destruct (elementKey arr j) eqn:Hkey.
    + by rewrite !js_get_js_set by (by rewrite ?elementKey_spread).
    + by rewrite !js_set_not_key, js_get_spread by (by rewrite ?elementKey_spread).
  - by rewrite !js_get_js_set_ne, js_get_spread.
Qed.

Lemma bestAIMove_Some_legal board r i :
  bestAIMove board r = Some i → legalMove board i.
Proof.
  unfold bestAIMove.
  destruct (firstWinning O board (getAvailableMoves board)) as [i'|] eqn:HO.
  { intros [= ->]. by apply firstWinning_least in HO as [? _]. }
  destruct (firstWinning X board (getAvailableMoves board)) as [i'|] eqn:HX.
  { intros [= ->]. by apply firstWinning_least in HX as [? _]. }
  unfold getRandomMove. case_decide; [done|].
  intros Hi. apply elem_of_getAvailableMoves. by eapply list_elem_of_lookup_2.
Qed.

Lemma legalMove_falsy board i :
  legalMove board i → i < length board ∧ truthy (js_get board i) = false.
Proof.
  intros (v & Hv & Hf). split; [by apply lookup_lt_Some in Hv|].
  unfold js_get. by rewrite Hv.
Qed.

(** X6.  The index [bestAIMove] returns is always playable: it lies inside
    the board, its cell reads falsy, and on a round in progress [handleMove]
    accepts it and writes the mark whose turn it is there. *)
Theorem bestAIMove_playable (s : App) (r : Q) (i : nat) :
  validDraw r →
  bestAIMove (board (game s)) r = Some i →
  i < length (board (game s))
  ∧ truthy (js_get (board (game s)) i) = false
  ∧ (outcome (game s) = InProgress →
     moveRejected (game s) i = false
     ∧ js_get (board (game (handleMove i s))) i = Str (activeMark (game s))).
Proof.
  intros _ Hbest. apply bestAIMove_Some_legal, legalMove_falsy in Hbest as [Hlt Hf].
  split; [done|]. split; [done|]. intros Hprog.
  assert (Hacc : moveRejected (game s) i = false).
  { apply not_true_iff_false. rewrite moveRejected_true.
    rewrite cellRead_key by (by apply elementKey_lt).
    intros [Ht|Hn]; [congruence|done]. }
  split; [done|]. rewrite handleMove_accepted_game by done.
  unfold playedGame. simpl. apply js_get_js_set, elementKey_lt. by rewrite length_spread.
Qed.

Lemma bestAIMove_playable_witness :
  let s := handleMoves [0; 4; 1] (startNewGame initialApp) in
  validDraw (1 # 2)
  ∧ bestAIMove (board (game s)) (1 # 2) = Some 2
  ∧ moveRejected (game s) 2 = false.
Proof.
  intros s.
  assert (Hr : validDraw (1 # 2)) by valid_draw.
  assert (Hbest : bestAIMove (board (game s)) (1 # 2) = Some 2) by reflexivity.
  split; [exact Hr|]. split; [exact Hbest|].
  destruct (bestAIMove_playable s (1 # 2) 2 Hr Hbest) as (_ & _ & Hacc).
  apply Hacc. reflexivity.
Defined.

(** ** The computer's turn *)

Lemma computerTurn_true s :
  computerTurn s = true ↔
  started s = true ∧ mode s = PVC ∧ outcome (game s) = InProgress ∧ xIsNext (game s) = false.
Proof.
  unfold computerTurn. rewrite !andb_true_iff, !negb_true_iff, bool_decide_eq_true.
  rewrite outcome_InProgress. tauto.
Qed.

Lemma computerTurn_accepts s i :
  computerTurn s = true → legalMove (board (game s)) i → moveRejected (game s) i = false.
Proof.
  intros (_ & _ & Hprog & _)%computerTurn_true [Hlt Hf]%legalMove_falsy.
  apply not_true_iff_false. rewrite moveRejected_true.
  rewrite cellRead_key by (by apply elementKey_lt).
  intros [Ht|Hn]; [congruence|done].
Qed.

(** X7.  The computer takes a win when it has one: when the timer fires on
    its turn and some legal move completes a line for O, the round ends as
    a win of O and the O count grows by one. *)
Theorem computer_takes_win (s : App) (r : Q) :
  validDraw r →
  computerTurn s = true →
  (∃ j, legalMove (board (game s)) j ∧ winsWith O (board (game s)) j) →
  outcome (game (computerStep r s)) = Won O
  ∧ scores (computerStep r s) = bumpScore KeyO (scores s).
Proof.
  intros _ Hturn (j & Hj & Hwj). unfold computerStep, computerMove, bestAIMove.
  rewrite Hturn.
  destruct (firstWinning O (board (game s)) (getAvailableMoves (board (game s))))
    as [i|] eqn:HO.
  2: { exfalso. by apply (proj1 (firstWinning_none_legal O _) HO j). }
  apply firstWinning_least in HO as (Hi & Hwi & _).
  pose proof (computerTurn_accepts s i Hturn Hi) as Hacc.
  apply computerTurn_true in Hturn as (_ & _ & _ & Hx).
  unfold handleMove, outcome. rewrite Hacc. unfold playedGame, activeMark. simpl.
  rewrite Hx, getWinner_js_set_spread. unfold winsWith in Hwi. by rewrite Hwi.
Qed.

Lemma computer_takes_win_witness :
  let s := handleMoves [0; 4; 1; 5; 8] (startNewGame (chooseMode PVC initialApp)) in
  validDraw (1 # 2) ∧ computerTurn s = true
  ∧ outcome (game (computerStep (1 # 2) s)) = Won O.
Proof.
  intros s.
  assert (Hr : validDraw (1 # 2)) by valid_draw.
  assert (Hturn : computerTurn s = true) by reflexivity.
  split; [exact Hr|]. split; [exact Hturn|].
  apply (computer_takes_win s (1 # 2) Hr Hturn).
  exists 3. split; [by exists Null|reflexivity].
Defined.

(** X8.  The computer blocks when it cannot win: when the timer fires on its
    turn, no legal move completes a line for O, and [i] is the least legal
    index at which X would complete one, the computer's O is written at [i];
    the move does not make O the winner. *)
Theorem computer_blocks (s : App) (r : Q) (i : nat) :
  validDraw r →
  computerTurn s = true →
  (∀ j, legalMove (board (game s)) j → ¬ winsWith O (board (game s)) j) →
  legalMove (board (game s)) i →
  winsWith X (board (game s)) i →
  (∀ j, j < i → legalMove (board (game s)) j → ¬ winsWith X (board (game s)) j) →
  js_get (board (game (computerStep r s))) i = Str O
  ∧ outcome (game (computerStep r s)) ≠ Won O.
Proof.
  intros _ Hturn HnoO Hi Hwi Hleast. unfold computerStep, computerMove, bestAIMove.
  rewrite Hturn.
  rewrite (proj2 (firstWinning_none_legal O _)) by done.
  rewrite (proj2 (firstWinning_least X _ i)) by done.
  pose proof (computerTurn_accepts s i Hturn Hi) as Hacc.
  apply computerTurn_true in Hturn as (_ & _ & _ & Hx).
  rewrite handleMove_accepted_game by done.
  unfold playedGame, activeMark, outcome. simpl. rewrite Hx. split.
  - apply js_get_js_set, elementKey_lt. rewrite length_spread.
    by apply legalMove_falsy in Hi as [? _].
  - rewrite getWinner_js_set_spread. intros Hwon. apply (HnoO i Hi). unfold winsWith.
    destruct (getWinner (js_set (board (game s)) i (Str O))) as [| |[|]]; try done.
    all: by destruct (_ && _).
Qed.

Lemma computer_blocks_witness :
  let s := handleMoves [0; 4; 1] (startNewGame (chooseMode PVC initialApp)) in
  validDraw (1 # 2) ∧ computerTurn s = true
  ∧ js_get (board (game (computerStep (1 # 2) s))) 2 = Str O.
Proof.
  intros s.
  assert (Hr : validDraw (1 # 2)) by valid_draw.
  assert (Hturn : computerTurn s = true) by reflexivity.
  split; [exact Hr|]. split; [exact Hturn|].
  apply (computer_blocks s (1 # 2) 2 Hr Hturn).
  - intros j Hj. do 9 (destruct j as [|j]; [by vm_compute|]).
    apply legalMove_falsy in Hj as [Hlt _]. vm_compute in Hlt. lia.
  - by exists Null.
  - reflexivity.
  - intros j Hj _. do 2 (destruct j as [|j]; [by vm_compute|]). lia.
Defined.

(** ** Marks and winners *)

Lemma cellRead_arrayIndex g j :
  arrayIndex j = true → cellRead g j = js_get (board g) j.
Proof.
  intros Hj. apply cellRead_key. unfold elementKey. rewrite Hj. apply orb_true_r.
Qed.

Lemma handleMove_keeps_marks idx s j m :
  arrayIndex j = true →
  cellRead (game s) j = Str m →
  cellRead (game (handleMove idx s)) j = Str m.
Proof.
  intros Harr Hj. destruct (moveRejected (game s) idx) eqn:Hrej.
  - by rewrite handleMove_rejected.
  - rewrite cellRead_arrayIndex, handleMove_accepted_game by done.
    unfold playedGame. simpl.
    assert (idx ≠ j).
    { intros ->. unfold moveRejected in Hrej. rewrite Hj in Hrej. done. }
    rewrite cellRead_arrayIndex in Hj by done.
    by rewrite js_get_js_set_ne, js_get_spread.
Qed.

(** X9.  Marks in the cells are permanent within a round: a read
    [game.board[j]] at an array index [j] that gives a mark still gives that
    mark after any sequence of [handleMove] calls, whatever their keys. *)
Theorem marks_are_permanent (s : App) (idxs : list nat) (j : nat) (m : Mark) :
  arrayIndex j = true →
  cellRead (game s) j = Str m →
  cellRead (game (handleMoves idxs s)) j = Str m.
Proof.
  intros Harr Hj. induction idxs as [|idx idxs IH] using rev_ind; [done|].
  rewrite handleMoves_snoc. by apply handleMove_keeps_marks.
Qed.

Lemma marks_are_permanent_witness :
  let s := handleMove 4 (startNewGame initialApp) in
  arrayIndex 4 = true
  ∧ cellRead (game s) 4 = Str X
  ∧ cellRead (game (handleMoves [4; 0; 4; 12; 8] s)) 4 = Str X.
Proof.
  intros s.
  assert (Ha : arrayIndex 4 = true) by reflexivity.
  assert (H4 : cellRead (game s) 4 = Str X) by reflexivity.
  split; [exact Ha|]. split; [exact H4|].
  exact (marks_are_permanent s [4; 0; 4; 12; 8] 4 X Ha H4).
Defined.

(** A mark written under a key that is not an array index is not a cell and
    does not last: after [handleMove(4294967295)] on a fresh round the read
    at that key gives X, and after the next accepted move, whose copy of the
    array does not carry the property over, it gives [undefined]. *)
Example property_mark_is_lost :
  let s := handleMove (N.to_nat 4294967295) (startNewGame initialApp) in
  cellRead (game s) (N.to_nat 4294967295) = Str X
  ∧ cellRead (game (handleMove 0 s)) (N.to_nat 4294967295) = Undefined.
Proof.
  assert (Hgen : ∀ k, 9 ≤ k → arrayIndex k = false →
            let s := handleMove k (startNewGame initialApp) in
            cellRead (game s) k = Str X ∧ cellRead (game (handleMove 0 s)) k = Undefined).
  { intros k Hk Harr s.
    destruct (fresh_round_property_key initialApp k Hk Harr) as (Hacc & Hturn & Hb & _ & Hread).
    fold s in Hturn, Hb, Hread. split; [done|].
    assert (Hacc0 : moveRejected (game s) 0 = false).
    { unfold s. rewrite handleMove_accepted_game by done.
      unfold moveRejected, cellRead, playedGame. simpl.
      rewrite js_set_not_key; [reflexivity|].
      unfold elementKey. rewrite Harr, bool_decide_eq_false_2; [done|]. simpl. lia. }
    rewrite handleMove_accepted_game by done.
    unfold cellRead, playedGame, propsAfterWrite. rewrite Hb. simpl.
    unfold elementKey. simpl. rewrite Harr, bool_decide_eq_false_2 by lia. reflexivity. }
  apply Hgen; [lia|]. unfold arrayIndex. rewrite N2Nat.id. reflexivity.
Qed.

(** X10.  Only the mover can win: when no line of the board is owned before
    an accepted move, a win recorded by that move is a win of the mark that
    was just placed, and it is that mark's count that grows. *)
Theorem winner_is_mover (s : App) (idx : nat) (m : Mark) :
  getWinner (board (game s)) = Null →
  moveRejected (game s) idx = false →
  outcome (game (handleMove idx s)) = Won m →
  m = activeMark (game s)
  ∧ scores (handleMove idx s) = bumpScore (scoreKey (Str (activeMark (game s)))) (scores s).
Proof.
  intros Hnone Hacc Hwon.
  assert (Hw : getWinner (js_set (spread (board (game s))) idx (Str (activeMark (game s))))
               = Str m).
  { rewrite handleMove_accepted_game in Hwon by done.
    unfold outcome, playedGame in Hwon. simpl in Hwon. revert Hwon.
    destruct (getWinner (js_set _ _ _)) as [| |m']; simpl.
    - by destruct (every _ _).
    - by destruct (every _ _).
    - congruence. }
  assert (Hm : m = activeMark (game s)).
  { pose proof Hw as Hw'. unfold getWinner in Hw'.
    apply getWinnerLoop_Str in Hw' as (k & l & Hk & Hown & _).
    apply list_elem_of_lookup_2 in Hk. pose proof (lines_in_range l Hk) as Hrange.
    destruct (decide (idx = l.1.1 ∨ idx = l.1.2 ∨ idx = l.2)) as [Hin|Hout].
    - destruct l as [[x y] z]. simpl in *. destruct Hown as (Hx & Hy & Hz).
      destruct Hin as [->|[->| ->]].
      + rewrite js_get_js_set in Hx by (apply elementKey_cell; lia). congruence.
      + rewrite js_get_js_set in Hy by (apply elementKey_cell; lia). congruence.
      + rewrite js_get_js_set in Hz by (apply elementKey_cell; lia). congruence.
    - exfalso. unfold getWinner in Hnone.
      apply (proj1 (getWinnerLoop_Null _ _) Hnone l m Hk).
      destruct l as [[x y] z]. simpl in *.
      rewrite !js_get_js_set_ne, !js_get_spread in Hown by tauto. done. }
  split; [done|]. unfold handleMove. rewrite Hacc. unfold playedGame. simpl.
  by rewrite Hw, <- Hm.
Qed.

Lemma winner_is_mover_witness :
  let s := handleMoves [0; 4; 1; 5] (startNewGame initialApp) in
  getWinner (board (game s)) = Null
  ∧ moveRejected (game s) 2 = false
  ∧ outcome (game (handleMove 2 s)) = Won X
  ∧ X = activeMark (game s).
Proof.
  intros s.
  assert (H1 : getWinner (board (game s)) = Null) by reflexivity.
  assert (H2 : moveRejected (game s) 2 = false) by reflexivity.
  assert (H3 : outcome (game (handleMove 2 s)) = Won X) by reflexivity.
  split; [exact H1|]. split; [exact H2|]. split; [exact H3|].
  exact (proj1 (winner_is_mover s 2 X H1 H2 H3)).
Defined.

(** ** What the component keeps true *)

Lemma filter_length_spread_falsy p arr :
  p Undefined = false → filter_length p (spread arr) = filter_length p arr.
Proof.
  intros Hp. unfold filter_length, spread.
  induction arr as [|[|v] arr IH]; simpl; [done|by rewrite Hp|].
  destruct (p v); simpl; [f_equal|]; exact IH.
Qed.

Lemma filter_length_js_set_falsy p arr i v :
  (∀ w, truthy w = false → p w = false) →
  elementKey arr i = true →
  truthy (js_get arr i) = false →
  filter_length p (js_set arr i v) = filter_length p arr + (if p v then 1 else 0).
Proof.
  intros Hp Hkey. unfold js_set, filter_length. case_decide as Hi.
  - clear Hkey. revert i Hi. induction arr as [|s arr IH]; intros i Hi Hf.
    + simpl in Hi. lia.
    + destruct i as [|i]; simpl.
      * destruct s as [|w]; [destruct (p v); simpl; lia|].
        unfold js_get in Hf. simpl in Hf. rewrite (Hp w Hf). destruct (p v); simpl; lia.
      * assert (Hf' : truthy (js_get arr i) = false) by done.
        assert (Hi' : i < length arr) by (simpl in Hi; lia).
        destruct s as [|w]; [by apply IH|].
        destruct (p w); simpl; by rewrite IH.
  - intros _. unfold elementKey in Hkey. rewrite bool_decide_eq_false_2 in Hkey by done.
    simpl in Hkey. rewrite Hkey.
    rewrite !List.filter_app, !length_app. simpl.
    assert (Hholes : ∀ k, List.filter (λ s, match s with Hole => false | Elem v => p v end)
                            (replicate k Hole) = []).
    { intros k. induction k as [|k IHk]; simpl; done. }
    rewrite Hholes. destruct (p v); simpl; lia.
Qed.

Lemma countMark_playedGame g idx m :
  elementKey (board g) idx = true →
  moveRejected g idx = false →
  countMark m (board (playedGame g idx))
  = countMark m (board g) + (if decide (m = activeMark g) then 1 else 0).
Proof.
  intros Hkey Hacc. unfold countMark, playedGame. simpl.
  rewrite filter_length_js_set_falsy.
  - rewrite filter_length_spread_falsy by done. f_equal.
    unfold strict_eq. case_bool_decide as Heq; case_decide as Hm; try done.
    + congruence.
    + by subst.
  - by intros [| |w].
  - by rewrite elementKey_spread.
  - rewrite js_get_spread. unfold moveRejected in Hacc.
    rewrite cellRead_key in Hacc by done.
    by destruct (truthy (js_get (board g) idx)).
Qed.

Lemma spread_plain arr : Forall plainCell arr → spread arr = arr.
Proof.
  unfold spread. induction 1 as [|s arr Hs _ IH]; [done|].
  rewrite fmap_cons, IH. by destruct Hs as [->|[m ->]].
Qed.

Lemma consistentGame_initialState : consistentGame initialState.
Proof.
  repeat split. simpl. repeat constructor.
Qed.

Lemma consistentGame_playedGame g idx :
  consistentGame g → idx < 9 → moveRejected g idx = false →
  consistentGame (playedGame g idx).
Proof.
  intros (Hlen & Hplain & Hwin & Htie & Hpar & Hbal) Hidx Hacc.
  assert (Hb : board (playedGame g idx) = <[idx := Elem (Str (activeMark g))]> (board g)).
  { unfold playedGame. simpl. rewrite spread_plain by done. apply js_set_in_range. lia. }
  split; [by rewrite Hb, length_insert|].
  split; [rewrite Hb; apply Forall_insert; [done|right; by eexists]|].
  split; [done|]. split; [done|].
  pose proof (elementKey_cell (board g) idx Hidx) as Hkey.
  split; [by apply playedGame_parity|].
  rewrite !countMark_playedGame by done. unfold activeMark. simpl.
  destruct (xIsNext g); simpl; repeat case_decide; try done; lia.
Qed.

Lemma cellDisabled_false s idx :
  cellDisabled s idx = false →
  moveRejected (game s) idx = false ∧ (mode s = PVC → xIsNext (game s) = true).
Proof.
  unfold cellDisabled, moveRejected. rewrite !orb_false_iff.
  intros [[[H1 H2] H3] H4]. split; [by rewrite H1, H2, H3|].
  intros Hm. rewrite bool_decide_eq_true_2 in H4 by done.
  by destruct (xIsNext (game s)).
Qed.

Lemma dispatch_keeps e s :
  consistentGame (game s) ∧ (started s = false → game s = initialState) →
  consistentGame (game (dispatch e s))
  ∧ (started (dispatch e s) = false → game (dispatch e s) = initialState).
Proof.
  intros [Hcons Hstart].
  assert (Hmove : ∀ idx, idx < 9 → moveRejected (game s) idx = false → started s = true →
            consistentGame (game (handleMove idx s))
            ∧ (started (handleMove idx s) = false → game (handleMove idx s) = initialState)).
  { intros idx Hidx Hacc Hst. rewrite handleMove_accepted_game by done.
    split; [by apply consistentGame_playedGame|].
    unfold handleMove. rewrite Hacc. simpl. congruence. }
  destruct e as [idx| | | |newMode| |r]; simpl.
  - unfold clickCell.
    destruct (started s && bool_decide (idx < 9) && negb (cellDisabled s idx)) eqn:Hc;
      [|done].
    apply andb_true_iff in Hc as [[Hst Hidx]%andb_true_iff Hdis].
    apply bool_decide_eq_true in Hidx. apply negb_true_iff, cellDisabled_false in Hdis as [Hacc _].
    by apply Hmove.
  - destruct (started s) eqn:Hst; [by rewrite Hst|].
    split; [apply consistentGame_initialState|done].
  - destruct (started s) eqn:Hst; [|by rewrite Hst].
    split; [apply consistentGame_initialState|done].
  - destruct (started s) eqn:Hst; [|by rewrite Hst].
    split; [apply consistentGame_initialState|done].
  - unfold clickModeButton. destruct (started s) eqn:Hst; [by rewrite Hst|].
    split; [apply consistentGame_initialState|done].
  - done.
  - unfold computerStep. destruct (computerTurn s) eqn:Hturn; [|done].
    unfold computerMove. destruct (bestAIMove (board (game s)) r) as [idx|] eqn:Hbest; [|done].
    apply bestAIMove_Some_legal in Hbest.
    pose proof (computerTurn_accepts s idx Hturn Hbest) as Hacc.
    apply legalMove_falsy in Hbest as [Hlt _]. destruct Hcons as [Hlen ?]. rewrite Hlen in Hlt.
    apply computerTurn_true in Hturn as [Hst _]. apply Hmove; try done.
    all: by repeat split.
Qed.

Lemma runEvents_snoc evs e s :
  runEvents (evs ++ [e]) s = dispatch e (runEvents evs s).
Proof. unfold runEvents. by rewrite foldl_snoc. Qed.

Lemma runEvents_keeps evs :
  let s := runEvents evs initialApp in
  consistentGame (game s) ∧ (started s = false → game s = initialState).
Proof.
  induction evs as [|e evs IH] using rev_ind.
  - split; [apply consistentGame_initialState|done].
  - simpl. rewrite runEvents_snoc. by apply dispatch_keeps.
Qed.

Ltac valid_events :=
  repeat (apply Forall_cons; split;
          [first [exact I | valid_draw]|]);
  by apply Forall_nil.

(** X11.  Whatever is clicked and whenever the timer fires, the board stays
    an array of exactly nine cells, each [null] or a mark: no hole, no
    [undefined], no growth; so every available move is an index 0..8. *)
Theorem ui_board_shape (evs : list Event) :
  Forall validEvent evs →
  let s := runEvents evs initialApp in
  length (board (game s)) = 9
  ∧ Forall plainCell (board (game s))
  ∧ ∀ i, i ∈ getAvailableMoves (board (game s)) → i < 9.
Proof.
  intros _ s. destruct (runEvents_keeps evs) as [(Hlen & Hplain & _) _]. fold s in Hlen, Hplain.
  split; [done|]. split; [done|].
  intros i (v & Hv & _)%elem_of_getAvailableMoves.
  apply lookup_lt_Some in Hv. lia.
Qed.

Lemma ui_board_shape_witness :
  let evs := [ClickMode PVC; ClickStart; ClickCell 4; ComputerTimer (1 # 2); ClickCell 12;
              ClickCell 8; ComputerTimer 0] in
  Forall validEvent evs
  ∧ length (board (game (runEvents evs initialApp))) = 9.
Proof.
  intros evs. assert (Hv : Forall validEvent evs) by (unfold evs; valid_events).
  split; [exact Hv|]. exact (proj1 (ui_board_shape evs Hv)).
Defined.

(** X12.  The stored outcome always matches the board: the [winner] field is
    what [getWinner] returns on the current board, and the [tie] flag is set
    exactly when there is no winner and all nine cells hold a mark. *)
Theorem ui_outcome_matches_board (evs : list Event) :
  Forall validEvent evs →
  let s := runEvents evs initialApp in
  winner (game s) = getWinner (board (game s))
  ∧ (tie (game s) = true ↔
     getWinner (board (game s)) = Null
     ∧ ∀ i, i < 9 → ∃ m, js_get (board (game s)) i = Str m).
Proof.
  intros _ s. destruct (runEvents_keeps evs) as [(Hlen & Hplain & Hwin & Htie & _) _].
  fold s in Hlen, Hplain, Hwin, Htie. split; [done|].
  rewrite Htie, andb_true_iff, negb_true_iff, every_truthy. split.
  - intros [Hw Hall]. split; [by apply getWinner_falsy_Null|].
    intros i Hi. destruct (lookup_lt_is_Some_2 (board (game s)) i) as [c Hc]; [lia|].
    unfold js_get. rewrite Hc.
    destruct (Hall i c Hc) as [->|[m ->]]; [|by exists m].
    rewrite Forall_lookup in Hplain. by destruct (Hplain i Hole Hc) as [?|[? ?]].
  - intros [Hw Hall]. split; [by rewrite Hw|].
    intros i c Hc. destruct (Hall i) as [m Hm]; [apply lookup_lt_Some in Hc; lia|].
    unfold js_get in Hm. rewrite Hc in Hm. destruct c as [|v]; [done|].
    right. exists m. by subst.
Qed.

Lemma ui_outcome_matches_board_witness :
  let evs := [ClickStart; ClickCell 0; ClickCell 4; ClickCell 1; ClickCell 5; ClickCell 2;
              ClickCell 3] in
  Forall validEvent evs
  ∧ winner (game (runEvents evs initialApp)) = Str X
  ∧ getWinner (board (game (runEvents evs initialApp))) = Str X.
Proof.
  intros evs. assert (Hv : Forall validEvent evs) by (unfold evs; valid_events).
  split; [exact Hv|]. split; [reflexivity|].
  rewrite <- (proj1 (ui_outcome_matches_board evs Hv)). reflexivity.
Defined.

(** X13.  Whenever the start screen is shown ([started] is false) the game
    is the initial one: leaving a round, by Reset All or by a mode button,
    never leaves marks, a winner or a tie behind. *)
Theorem ui_start_screen_initial (evs : list Event) :
  Forall validEvent evs →
  let s := runEvents evs initialApp in
  started s = false → game s = initialState.
Proof. intros _ s. by destruct (runEvents_keeps evs) as [_ Hstart]. Qed.

Lemma ui_start_screen_initial_witness :
  let evs := [ClickStart; ClickCell 0; ClickCell 4; ClickResetAll; ClickMode PVC] in
  Forall validEvent evs
  ∧ started (runEvents evs initialApp) = false
  ∧ game (runEvents evs initialApp) = initialState.
Proof.
  intros evs. assert (Hv : Forall validEvent evs) by (unfold evs; valid_events).
  assert (Hs : started (runEvents evs initialApp) = false) by reflexivity.
  split; [exact Hv|]. split; [exact Hs|]. exact (ui_start_screen_initial evs Hv Hs).
Defined.

Lemma countMark_total board :
  countMark X board + countMark O board = filter_length truthy board.
Proof.
  unfold countMark, filter_length, strict_eq.
  induction board as [|[|[| |[|]]] rest IH]; simpl; try done; lia.
Qed.

(** X14.  The marks stay balanced: X holds as many cells as O when X is to
    move and one more when O is to move, so never more than five X and four
    O; and the mark to move is the one [nextTurn] computes from the board. *)
Theorem ui_marks_balanced (evs : list Event) :
  Forall validEvent evs →
  let s := runEvents evs initialApp in
  countMark X (board (game s))
  = countMark O (board (game s)) + (if xIsNext (game s) then 0 else 1)
  ∧ countMark X (board (game s)) ≤ 5
  ∧ countMark O (board (game s)) ≤ 4
  ∧ activeMark (game s) = nextTurn (board (game s)).
Proof.
  intros _ s. destruct (runEvents_keeps evs) as [(Hlen & _ & _ & _ & Hpar & Hbal) _].
  fold s in Hlen, Hpar, Hbal.
  pose proof (countMark_total (board (game s))) as Htot.
  destruct (availableFrom_length 0 (board (game s))) as [Hle _].
  split; [done|]. split; [|split].
  - destruct (xIsNext (game s)); lia.
  - destruct (xIsNext (game s)); lia.
  - rewrite nextTurn_even, <- Hpar. done.
Qed.

Lemma ui_marks_balanced_witness :
  let evs := [ClickMode PVC; ClickStart; ClickCell 4; ComputerTimer (1 # 2); ClickCell 0] in
  Forall validEvent evs
  ∧ countMark X (board (game (runEvents evs initialApp))) = 2
  ∧ countMark O (board (game (runEvents evs initialApp))) = 1
  ∧ activeMark (game (runEvents evs initialApp)) = O.
Proof.
  intros evs. assert (Hv : Forall validEvent evs) by (unfold evs; valid_events).
  split; [exact Hv|]. split; [reflexivity|]. split; [reflexivity|].
  rewrite (proj2 (proj2 (proj2 (ui_marks_balanced evs Hv)))). reflexivity.
Defined.

(** X15.  A round in progress always has a free cell: while neither a winner
    nor a tie is recorded, fewer than nine cells are marked and
    [getAvailableMoves] is not empty. *)
Theorem ui_in_progress_has_move (evs : list Event) :
  Forall validEvent evs →
  let s := runEvents evs initialApp in
  outcome (game s) = InProgress →
  getAvailableMoves (board (game s)) ≠ []
  ∧ filter_length truthy (board (game s)) < 9.
Proof.
  intros _ s [Hw Ht]%outcome_InProgress.
  destruct (runEvents_keeps evs) as [(Hlen & Hplain & Hwin & Htie & _) _].
  fold s in Hlen, Hplain, Hwin, Htie.
  assert (Hmoves : getAvailableMoves (board (game s)) ≠ []).
  { unfold getAvailableMoves. rewrite availableFrom_nil. rewrite Htie, <- Hwin, Hw in Ht.
    simpl in Ht. by rewrite Ht. }
  split; [done|].
  destruct (availableFrom_length 0 (board (game s))) as [_ Heq].
  fold (getAvailableMoves (board (game s))) in Heq.
  assert (Hnoholes : Forall (λ c, c ≠ Hole) (board (game s))).
  { eapply Forall_impl; [exact Hplain|]. by intros c [->|[m ->]]. }
  specialize (Heq Hnoholes).
  destruct (getAvailableMoves (board (game s))); [done|]. simpl in Heq. lia.
Qed.

Lemma ui_in_progress_has_move_witness :
  let evs := [ClickStart; ClickCell 0; ClickCell 1; ClickCell 2; ClickCell 4; ClickCell 3;
              ClickCell 5; ClickCell 7; ClickCell 6] in
  Forall validEvent evs
  ∧ outcome (game (runEvents evs initialApp)) = InProgress
  ∧ getAvailableMoves (board (game (runEvents evs initialApp))) ≠ [].
Proof.
  intros evs. assert (Hv : Forall validEvent evs) by (unfold evs; valid_events).
  assert (Hp : outcome (game (runEvents evs initialApp)) = InProgress) by reflexivity.
  split; [exact Hv|]. split; [exact Hp|].
  exact (proj1 (ui_in_progress_has_move evs Hv Hp)).
Defined.

Lemma bestAIMove_None_nil board r :
  validDraw r → bestAIMove board r = None → getAvailableMoves board = [].
Proof.
  intros Hr. unfold bestAIMove.
  destruct (firstWinning O board (getAvailableMoves board)); [done|].
  destruct (firstWinning X board (getAvailableMoves board)); [done|].
  by apply getRandomMove_None.
Qed.

(** X16.  The computer never stalls: whenever its timer fires on its turn,
    [bestAIMove] returns an index 0..8 (never [null]), the move is accepted,
    an O is written there, and the turn goes back to X. *)
Theorem computer_never_stalls (evs : list Event) (r : Q) :
  Forall validEvent evs → validDraw r →
  let s := runEvents evs initialApp in
  computerTurn s = true →
  ∃ idx, idx < 9
         ∧ bestAIMove (board (game s)) r = Some idx
         ∧ computerStep r s = handleMove idx s
         ∧ moveRejected (game s) idx = false
         ∧ js_get (board (game (computerStep r s))) idx = Str O
         ∧ xIsNext (game (computerStep r s)) = true.
Proof.
  intros Hv Hr s Hturn.
  pose proof (proj1 (computerTurn_true s) Hturn) as (_ & _ & Hprog & Hx).
  destruct (runEvents_keeps evs) as [(Hlen & Hplain & Hwin & Htie & _) _].
  fold s in Hlen, Hplain, Hwin, Htie.
  assert (Hmoves : getAvailableMoves (board (game s)) ≠ []).
  { unfold getAvailableMoves. rewrite availableFrom_nil.
    apply outcome_InProgress in Hprog as [Hw Ht].
    rewrite Htie, <- Hwin, Hw in Ht. simpl in Ht. by rewrite Ht. }
  destruct (bestAIMove (board (game s)) r) as [idx|] eqn:Hbest.
  2: { by apply bestAIMove_None_nil, Hmoves in Hbest. }
  pose proof (bestAIMove_Some_legal _ _ _ Hbest) as Hlegal.
  pose proof (computerTurn_accepts s idx Hturn Hlegal) as Hacc.
  assert (Hidx : idx < 9) by (apply legalMove_falsy in Hlegal; lia).
  exists idx. split; [done|]. split; [done|].
  unfold computerStep, computerMove. rewrite Hturn, Hbest. split; [done|]. split; [done|].
  rewrite handleMove_accepted_game by done. unfold playedGame, activeMark. simpl.
  rewrite Hx. split; [by apply js_get_js_set, elementKey_cell|done].
Qed.

Lemma computer_never_stalls_witness :
  let evs := [ClickMode PVC; ClickStart; ClickCell 4] in
  Forall validEvent evs ∧ validDraw (3 # 4)
  ∧ computerTurn (runEvents evs initialApp) = true
  ∧ ∃ idx, idx < 9 ∧ bestAIMove (board (game (runEvents evs initialApp))) (3 # 4) = Some idx.
Proof.
  intros evs. assert (Hv : Forall validEvent evs) by (unfold evs; valid_events).
  assert (Hr : validDraw (3 # 4)) by valid_draw.
  assert (Ht : computerTurn (runEvents evs initialApp) = true) by reflexivity.
  split; [exact Hv|]. split; [exact Hr|]. split; [exact Ht|].
  destruct (computer_never_stalls evs (3 # 4) Hv Hr Ht) as (idx & Hidx & Hbest & _).
  exists idx. split; [exact Hidx|exact Hbest].
Defined.

(** X17.  In the mode against the computer, a click on a cell either does
    nothing or is a move of X on X's turn; in particular no click has any
    effect while it is the computer's turn. *)
Theorem pvc_clicks_are_X_moves (s : App) (idx : nat) :
  mode s = PVC →
  (clickCell idx s = s
   ∨ (started s = true ∧ idx < 9 ∧ xIsNext (game s) = true
      ∧ clickCell idx s = handleMove idx s
      ∧ js_get (board (game (clickCell idx s))) idx = Str X))
  ∧ (computerTurn s = true → clickCell idx s = s).
Proof.
  intros Hmode. unfold clickCell.
  destruct (started s && bool_decide (idx < 9) && negb (cellDisabled s idx)) eqn:Hc.
  - apply andb_true_iff in Hc as [[Hst Hidx]%andb_true_iff Hdis].
    apply bool_decide_eq_true in Hidx.
    apply negb_true_iff, cellDisabled_false in Hdis as [Hacc Hx]. specialize (Hx Hmode).
    split.
    + right. split; [done|]. split; [done|]. split; [done|]. split; [done|].
      rewrite handleMove_accepted_game by done. unfold playedGame, activeMark. simpl.
      rewrite Hx. apply js_get_js_set. by apply elementKey_cell.
    + intros (_ & _ & _ & Hx')%computerTurn_true. congruence.
  - split; [by left|done].
Qed.

Lemma pvc_clicks_are_X_moves_witness :
  let s := runEvents [ClickMode PVC; ClickStart; ClickCell 4] initialApp in
  mode s = PVC ∧ computerTurn s = true ∧ clickCell 0 s = s.
Proof.
  intros s. assert (Hm : mode s = PVC) by reflexivity.
  assert (Ht : computerTurn s = true) by reflexivity.
  split; [exact Hm|]. split; [exact Ht|].
  exact (proj2 (pvc_clicks_are_X_moves s 0 Hm) Ht).
Defined.

(** ** The theme *)

Lemma handleMove_toggleTheme idx s :
  handleMove idx (toggleTheme s) = toggleTheme (handleMove idx s).
Proof. unfold handleMove. simpl. by destruct (moveRejected (game s) idx). Qed.

Lemma dispatch_toggleTheme e s :
  dispatch e (toggleTheme s) = toggleTheme (dispatch e s).
Proof.
  destruct e as [idx| | | |newMode| |r]; simpl.
  - unfold clickCell, cellDisabled. simpl.
    destruct (_ && _); [apply handleMove_toggleTheme|done].
  - by destruct (started s).
  - by destruct (started s).
  - by destruct (started s).
  - unfold clickModeButton. simpl. by destruct (started s).
  - done.
  - unfold computerStep, computerTurn, computerMove. simpl.
    destruct (_ && _); [|done].
    destruct (bestAIMove _ _); [apply handleMove_toggleTheme|done].
Qed.

(** X18.  The theme and the game do not interfere: switching the theme
    before any sequence of clicks and timer events gives the same state as
    switching it after, and switching it twice gives back the state. *)
Theorem theme_does_not_interfere (evs : list Event) (s : App) :
  runEvents evs (toggleTheme s) = toggleTheme (runEvents evs s)
  ∧ toggleTheme (toggleTheme s) = s
  ∧ game (runEvents (ClickTheme :: evs) s) = game (runEvents evs s)
  ∧ scores (runEvents (ClickTheme :: evs) s) = scores (runEvents evs s).
Proof.
  assert (Hcomm : runEvents evs (toggleTheme s) = toggleTheme (runEvents evs s)).
  { induction evs as [|e evs IH] using rev_ind; [done|].
    by rewrite !runEvents_snoc, IH, dispatch_toggleTheme. }
  split; [done|]. split; [by destruct s as [[|] ? ? ? ?]|].
  change (runEvents (ClickTheme :: evs) s) with (runEvents evs (toggleTheme s)).
  by rewrite Hcomm.
Qed.

(** ** More on the computer's choice and on wins *)

(** X19.  When no legal move wins for O or blocks X, the computer may play
    any free cell: on an array of fewer than 2^32 elements, for each legal
    index there is a double in [0, 1), and one that is a multiple of 2^-52,
    on which [bestAIMove] returns it. *)
Theorem bestAIMove_fallback_reaches_every_move (board : list Slot) (i : nat) :
  (Z.of_nat (length board) < 2 ^ 32)%Z →
  (∀ j, legalMove board j → ¬ winsWith O board j ∧ ¬ winsWith X board j) →
  legalMove board i →
  ∃ r, validDraw r ∧ Qden r = 4503599627370496%positive
       ∧ bestAIMove board r = Some i.
Proof.
  intros Hlen Hno Hi.
  destruct (getRandomMove_reach board i Hlen Hi) as (r & Hr & Hden & Hrand).
  exists r. split; [done|]. split; [done|]. unfold bestAIMove.
  rewrite (proj2 (firstWinning_none_legal O board)) by (intros j Hj; by apply Hno).
  by rewrite (proj2 (firstWinning_none_legal X board)) by (intros j Hj; by apply Hno).
Qed.

Lemma bestAIMove_fallback_reaches_every_move_witness :
  let b := Elem <$> [Str X; Null; Null; Null; Null; Null; Null; Null; Null] in
  (Z.of_nat (length b) < 2 ^ 32)%Z
  ∧ legalMove b 7
  ∧ ∃ r, validDraw r ∧ Qden r = 4503599627370496%positive
         ∧ bestAIMove b r = Some 7.
Proof.
  intros b.
  assert (Hlen : (Z.of_nat (length b) < 2 ^ 32)%Z) by reflexivity.
  assert (Hl : legalMove b 7) by (by exists Null).
  split; [exact Hlen|]. split; [exact Hl|].
  apply (bestAIMove_fallback_reaches_every_move b 7 Hlen); [|exact Hl].
  intros j Hj. do 9 (destruct j as [|j]; [by vm_compute|]).
  apply legalMove_falsy in Hj as [Hlt _]. vm_compute in Hlt. lia.
Defined.

Lemma countMark_app m b1 b2 :
  countMark m (b1 ++ b2) = countMark m b1 + countMark m b2.
Proof. unfold countMark, filter_length. by rewrite List.filter_app, length_app. Qed.

Lemma countMark_one m b i : js_get b i = Str m → 1 ≤ countMark m b.
Proof.
  revert i. induction b as [|s b IH]; intros i Hi.
  - unfold js_get in Hi. by rewrite lookup_nil in Hi.
  - change (s :: b) with ([s] ++ b). rewrite countMark_app. destruct i as [|i].
    + unfold js_get in Hi. simpl in Hi. destruct s as [|v]; [done|]. subst v.
      unfold countMark, filter_length, strict_eq. simpl.
      rewrite bool_decide_eq_true_2 by done. simpl. lia.
    + specialize (IH i Hi). lia.
Qed.

Lemma js_get_drop b k i : js_get (drop k b) i = js_get b (k + i).
Proof. unfold js_get. by rewrite lookup_drop. Qed.

Lemma js_get_take b k i : i < k → js_get (take k b) i = js_get b i.
Proof. intros Hi. unfold js_get. by rewrite lookup_take_lt. Qed.

Lemma countMark_three m b x y z :
  x < y → y < z →
  js_get b x = Str m → js_get b y = Str m → js_get b z = Str m →
  3 ≤ countMark m b.
Proof.
  intros Hxy Hyz Hx Hy Hz.
  rewrite <- (take_drop y b), countMark_app.
  rewrite <- (take_drop (z - y) (drop y b)), countMark_app.
  pose proof (countMark_one m (take y b) x) as H1.
  pose proof (countMark_one m (take (z - y) (drop y b)) 0) as H2.
  pose proof (countMark_one m (drop (z - y) (drop y b)) 0) as H3.
  rewrite js_get_take in H1 by lia.
  rewrite js_get_take, js_get_drop, Nat.add_0_r in H2 by lia.
  rewrite !js_get_drop, Nat.add_0_r in H3.
  replace (y + (z - y)) with z in H3 by lia.
  specialize (H1 Hx). specialize (H2 Hy). specialize (H3 Hz). lia.
Qed.

Lemma lines_ascending l : l ∈ lines → l.1.1 < l.1.2 ∧ l.1.2 < l.2.
Proof.
  unfold lines. rewrite !elem_of_cons, elem_of_nil.
  intros H. repeat destruct H as [->|H]; simpl; try lia; done.
Qed.

Lemma getWinner_three board m : getWinner board = Str m → 3 ≤ countMark m board.
Proof.
  unfold getWinner. intros (k & l & Hk & Hown & _)%getWinnerLoop_Str.
  apply list_elem_of_lookup_2, lines_ascending in Hk.
  destruct l as [[x y] z]. simpl in *. destruct Hown as (Hx & Hy & Hz).
  destruct Hk as [Hxy Hyz]. by apply (countMark_three m board x y z).
Qed.

(** X20.  A winner holds at least three cells: whenever [getWinner] returns
    a mark, the board has that mark in three or more cells. *)
Theorem winner_holds_three_cells (board : list Slot) (m : Mark) :
  getWinner board = Str m → 3 ≤ countMark m board.
Proof. apply getWinner_three. Qed.

Lemma winner_holds_three_cells_witness :
  let b := Elem <$> [Str O; Str X; Str X; Null; Str O; Str X; Null; Null; Str O] in
  getWinner b = Str O ∧ 3 ≤ countMark O b.
Proof.
  intros b. assert (Hw : getWinner b = Str O) by reflexivity.
  split; [exact Hw|]. exact (winner_holds_three_cells b O Hw).
Defined.

(** X21.  No round is won before its fifth move: whenever a winner is
    recorded, at least five cells are marked (at least six when the winner
    is O). *)
Theorem ui_win_needs_five_moves (evs : list Event) (m : Mark) :
  Forall validEvent evs →
  let s := runEvents evs initialApp in
  outcome (game s) = Won m →
  (if decide (m = X) then 5 else 6) ≤ filter_length truthy (board (game s)).
Proof.
  intros _ s Hwon.
  destruct (runEvents_keeps evs) as [(_ & _ & Hwin & _ & _ & Hbal) _].
  fold s in Hwin, Hbal.
  assert (Hw : getWinner (board (game s)) = Str m).
  { rewrite <- Hwin. unfold outcome in Hwon.
    destruct (winner (game s)); [by destruct (tie (game s))..|congruence]. }
  apply getWinner_three in Hw.
  rewrite <- countMark_total.
  destruct m, (xIsNext (game s)); simpl in *; lia.
Qed.

Lemma ui_win_needs_five_moves_witness :
  let evs := [ClickStart; ClickCell 0; ClickCell 4; ClickCell 1; ClickCell 5; ClickCell 2] in
  Forall validEvent evs
  ∧ outcome (game (runEvents evs initialApp)) = Won X
  ∧ 5 ≤ filter_length truthy (board (game (runEvents evs initialApp))).
Proof.
  intros evs. assert (Hv : Forall validEvent evs) by (unfold evs; valid_events).
  assert (Hw : outcome (game (runEvents evs initialApp)) = Won X) by reflexivity.
  split; [exact Hv|]. split; [exact Hw|].
  exact (ui_win_needs_five_moves evs X Hv Hw).
Defined.
